(** * The CSS selector builder of [src/objects-tasks.js]

    A shallow embedding of the [cssSelectorBuilder] object. The facade and
    the instances it creates live in an object store; every method is a
    computation over that store which either completes normally or throws;
    property reads go through the prototype link of an instance to the
    facade, as [Object.create(cssSelectorBuilder)] sets it up.

    Part I holds the definitions: the embedding of the code, the client
    programs the statements range over, and the notions the documentation
    uses (fragments, ranks, ordered sequences). Part II holds the lemmas
    and the theorems. *)

From Stdlib Require Import String Ascii ZArith Bool Lia.
From stdpp Require Import base option list sorting.

Local Open Scope string_scope.
Local Open Scope Z_scope.

(** * Part I: definitions *)

(** ** JavaScript strings *)

Module JsString.

(** [String.prototype.includes]: [sub] occurs in [s] at some position.
    Characters are compared unit by unit. *)
Fixpoint includes (s sub : string) : bool :=
  String.prefix sub s ||
  match s with
  | EmptyString => false
  | String _ rest => includes rest sub
  end.

(** The double quote, for attribute values such as [href$=".png"]. *)
Definition dquote : string := String "034"%char EmptyString.

End JsString.

Import JsString.

(** ** Values and completions *)

(** The values that flow through the builder: every stored field is a
    string, and reading an absent property yields [undefined]. *)
Inductive value : Type :=
| Undefined
| Str (s : string).

(** Conversion of a template-literal hole [${v}]. *)
Definition to_string (v : value) : string :=
  match v with
  | Undefined => "undefined"
  | Str s => s
  end.

(** Strict equality [===] on these values. *)
Definition strict_eq (a b : value) : bool :=
  match a, b with
  | Undefined, Undefined => true
  | Str x, Str y => String.eqb x y
  | _, _ => false
  end.

(** What a [throw] carries: [new Error(message)], or the engine's own
    [TypeError] for a method call on [undefined]. *)
Inductive exn : Type :=
| Error (message : string)
| TypeError.

Inductive completion (A : Type) : Type :=
| Normal (a : A)
| Throw (e : exn).
Arguments Normal {A} a.
Arguments Throw {A} e.

(** ** The object store *)

Abbreviation loc := nat.

(** The own properties of an object; [None] is an absent property. *)
Record object : Type := Object {
  selector : option string;
  lastPart : option string
}.

Abbreviation heap := (list object).

(** The facade is the first object of the store and the prototype of every
    other one. *)
Definition facade : loc := 0%nat.

Definition cssSelectorBuilder : object :=
  {| selector := Some EmptyString; lastPart := Some EmptyString |}.

Definition order : list string :=
  ["element"; "id"; "class"; "attr"; "pseudoClass"; "pseudoElement"]%list.

Definition heap0 : heap := [cssSelectorBuilder]%list.

(** Property read [o.field]: the own property, else the prototype's. The
    facade's own prototype holds neither field. *)
Definition get (field : object -> option string) (h : heap) (l : loc) : value :=
  match h !! l with
  | None => Undefined
  | Some o =>
      match field o with
      | Some s => Str s
      | None =>
          match l with
          | O => Undefined
          | S _ =>
              match h !! facade with
              | Some p => from_option Str Undefined (field p)
              | None => Undefined
              end
          end
      end
  end.

(** ** Computations over the store *)

Definition M (A : Type) : Type := heap -> completion A * heap.

Definition ret {A} (a : A) : M A := fun h => (Normal a, h).

Definition throw {A} (e : exn) : M A := fun h => (Throw e, h).

Definition bind {A B} (m : M A) (k : A -> M B) : M B :=
  fun h =>
    match m h with
    | (Normal a, h') => k a h'
    | (Throw e, h') => (Throw e, h')
    end.

Notation "x <- m ;; k" := (bind m (fun x => k))
  (at level 62, m at next level, right associativity).
Notation "m ;;; k" := (bind m (fun _ => k))
  (at level 62, right associativity).

(** [this.field] *)
Definition read (field : object -> option string) (this : loc) : M value :=
  fun h => (Normal (get field h this), h).

(** [Object.create(cssSelectorBuilder)]: a fresh object without own
    properties. *)
Definition Object_create : M loc :=
  fun h => (Normal (length h), (h ++ [Object None None])%list).

(** [o.selector = s] and [o.lastPart = s]: the assignment defines an own
    property on [o]. *)
Definition set_selector (o : loc) (s : string) : M unit :=
  fun h => (Normal tt, alter (fun x => Object (Some s) (lastPart x)) o h).

Definition set_lastPart (o : loc) (s : string) : M unit :=
  fun h => (Normal tt, alter (fun x => Object (selector x) (Some s)) o h).

(** ** The methods *)

Definition duplicate_message : string :=
  "Element, id and pseudo-element should not occur more then one time inside the selector".

Definition order_message : string :=
  "Selector parts should be arranged in the following order: element, id, class, attribute, pseudo-class, pseudo-element".

(** [Array.prototype.indexOf]: first index strictly equal to [v], else -1. *)
Fixpoint indexOf_from (i : Z) (arr : list string) (v : value) : Z :=
  match arr with
  | nil => -1
  | x :: rest => if strict_eq (Str x) v then i else indexOf_from (i + 1) rest v
  end.

Definition indexOf (arr : list string) (v : value) : Z := indexOf_from 0 arr v.

Definition stringify (this : loc) : M value := read selector this.

Definition create (this : loc) (newSelector currPart : string) : M loc :=
  newInstance <- Object_create ;;
  set_selector newInstance newSelector ;;;
  set_lastPart newInstance currPart ;;;
  ret newInstance.

Definition validate (this : loc) (currentSelector : value) (newPart : string)
  : M unit :=
  match currentSelector with
  | Undefined => throw TypeError
  | Str cur =>
      let isCompatible := true in
      let isCompatible :=
        if includes cur "table" && String.eqb newPart "div"
        then false else isCompatible in
      let isCompatible :=
        if includes cur newPart then false else isCompatible in
      if negb isCompatible then throw (Error duplicate_message) else ret tt
  end.

Definition checkOrder (this : loc) (part : string) : M unit :=
  last <- read lastPart this ;;
  let lastPartInd := indexOf order last in
  let partInd := indexOf order (Str part) in
  if (lastPartInd >? -1) && (lastPartInd >? partInd)
  then throw (Error order_message)
  else ret tt.

Definition element (this : loc) (v : string) : M loc :=
  checkOrder this "element" ;;;
  cur <- read selector this ;;
  validate this cur v ;;;
  cur <- read selector this ;;
  create this (to_string cur ++ v) "element".

Definition id (this : loc) (v : string) : M loc :=
  checkOrder this "id" ;;;
  cur <- read selector this ;;
  validate this cur "#" ;;;
  cur <- read selector this ;;
  create this (to_string cur ++ "#" ++ v) "id".

Definition class (this : loc) (v : string) : M loc :=
  checkOrder this "class" ;;;
  cur <- read selector this ;;
  create this (to_string cur ++ "." ++ v) "class".

Definition attr (this : loc) (v : string) : M loc :=
  checkOrder this "attr" ;;;
  cur <- read selector this ;;
  create this (to_string cur ++ "[" ++ v ++ "]") "attr".

Definition pseudoClass (this : loc) (v : string) : M loc :=
  checkOrder this "pseudoClass" ;;;
  cur <- read selector this ;;
  create this (to_string cur ++ ":" ++ v) "pseudoClass".

Definition pseudoElement (this : loc) (v : string) : M loc :=
  checkOrder this "pseudoElement" ;;;
  cur <- read selector this ;;
  validate this cur "::" ;;;
  cur <- read selector this ;;
  create this (to_string cur ++ "::" ++ v) "pseudoElement".

(** [combine] builds on a throw-away instance and leaves [currPart] to its
    default, the empty string. *)
Definition combine (this : loc) (selector1 : loc) (combinator : string)
    (selector2 : loc) : M loc :=
  receiver <- Object_create ;;
  left <- stringify selector1 ;;
  right <- stringify selector2 ;;
  create receiver
    (to_string left ++ " " ++ combinator ++ " " ++ to_string right)
    EmptyString.

(** ** Client programs *)

Inductive category : Type :=
| Element | Id | Class | Attr | PseudoClass | PseudoElement.

Definition call : Type := category * string.

Definition append (c : category) (this : loc) (v : string) : M loc :=
  match c with
  | Element => element this v
  | Id => id this v
  | Class => class this v
  | Attr => attr this v
  | PseudoClass => pseudoClass this v
  | PseudoElement => pseudoElement this v
  end.

(** [this.c1(v1).c2(v2)...] *)
Fixpoint chain (cs : list call) (this : loc) : M loc :=
  match cs with
  | nil => ret this
  | (c, v) :: rest => next <- append c this v ;; chain rest next
  end.

(** [cssSelectorBuilder.c1(v1)....stringify()] in a given store. *)
Definition build_in (h : heap) (cs : list call) : completion value :=
  fst ((built <- chain cs facade ;; stringify built) h).

(** The same expression as the first thing a program does. *)
Definition build (cs : list call) : completion value := build_in heap0 cs.

(** One call a client can make on the objects of the store. *)
Inductive operation : Type :=
| Append (c : category) (this : loc) (v : string)
| Combine (this selector1 : loc) (combinator : string) (selector2 : loc)
| Stringify (this : loc).

(** The store an operation leaves, whether it returned or threw. *)
Definition run (op : operation) (h : heap) : heap :=
  match op with
  | Append c this v => snd (append c this v h)
  | Combine this s1 comb s2 => snd (combine this s1 comb s2 h)
  | Stringify this => snd (stringify this h)
  end.

Definition run_all (ops : list operation) (h : heap) : heap :=
  fold_left (fun h op => run op h) ops h.

(** ** The notions of the documentation *)

(** The text one call contributes: the name verbatim, or the punctuation
    of its category around it. *)
Definition fragment (c : category) (v : string) : string :=
  match c with
  | Element => v
  | Id => "#" ++ v
  | Class => "." ++ v
  | Attr => "[" ++ v ++ "]"
  | PseudoClass => ":" ++ v
  | PseudoElement => "::" ++ v
  end.

(** Concatenation of the fragments in call order. *)
Fixpoint render (cs : list call) : string :=
  match cs with
  | nil => EmptyString
  | (c, v) :: rest => fragment c v ++ render rest
  end.

(** Position of a category in the fixed order. *)
Definition rank (c : category) : nat :=
  match c with
  | Element => 0
  | Id => 1
  | Class => 2
  | Attr => 3
  | PseudoClass => 4
  | PseudoElement => 5
  end.

(** The name under which a method records its category in [lastPart]. *)
Definition part_name (c : category) : string :=
  match c with
  | Element => "element"
  | Id => "id"
  | Class => "class"
  | Attr => "attr"
  | PseudoClass => "pseudoClass"
  | PseudoElement => "pseudoElement"
  end.

(** The punctuation an id or a pseudo-element leaves in the text. *)
Definition marker (c : category) : string :=
  match c with
  | Id => "#"
  | PseudoElement => "::"
  | _ => EmptyString
  end.

Fixpoint nondecreasing (rs : list nat) : bool :=
  match rs with
  | a :: (b :: _) as rest => (a <=? b)%nat && nondecreasing rest
  | _ => true
  end.

Definition category_eqb (a b : category) : bool := (rank a =? rank b)%nat.

Fixpoint occurrences (c : category) (cs : list call) : nat :=
  match cs with
  | nil => 0
  | (c', _) :: rest =>
      ((if category_eqb c c' then 1 else 0) + occurrences c rest)%nat
  end.

(** The categories follow the fixed order, and element, id and
    pseudo-element occur at most once each. *)
Definition respects_order (cs : list call) : bool :=
  nondecreasing (map (fun x => rank (fst x)) cs)
  && (occurrences Element cs <=? 1)%nat
  && (occurrences Id cs <=? 1)%nat
  && (occurrences PseudoElement cs <=? 1)%nat.

(** No fragment trips the textual compatibility check: the element name is
    not empty, no ['#'] precedes the id, no ['::'] precedes the
    pseudo-element. [before] is the text of the calls made so far. *)
Fixpoint clash_free_from (before : string) (cs : list call) : bool :=
  match cs with
  | nil => true
  | (c, v) :: rest =>
      match c with
      | Element => negb (String.eqb v EmptyString)
      | Id => negb (includes before "#")
      | PseudoElement => negb (includes before "::")
      | _ => true
      end
      && clash_free_from (before ++ fragment c v) rest
  end.

Definition clash_free (cs : list call) : bool := clash_free_from EmptyString cs.

(** The facade still holds its two empty fields. *)
Definition pristine (h : heap) : Prop := h !! facade = Some cssSelectorBuilder.

(** ** The two checks as functions of what they read *)

Definition out_of_order (last : value) (part : string) : bool :=
  (indexOf order last >? -1) && (indexOf order last >? indexOf order (Str part)).

Definition clashes (c : category) (cur v : string) : bool :=
  match c with
  | Element => (includes cur "table" && String.eqb v "div") || includes cur v
  | Id => includes cur "#"
  | PseudoElement => includes cur "::"
  | _ => false
  end.

(** ** Frame properties of computations *)

(** A computation [extends] the store when the store it leaves is the one
    it found, followed by the objects it allocated. *)
Definition extends {A} (m : M A) : Prop :=
  forall h : heap, exists t : heap, snd (m h) = (h ++ t)%list.

(** A computation returns a [fresh] object when the object it returns did
    not exist in the store it started from. *)
Definition fresh (m : M loc) : Prop :=
  forall (h h' : heap) (l : loc), m h = (Normal l, h') -> (length h <= l)%nat.

(** ** [sellTickets] *)

(** The seller's change: how many bills of 25 and of 50 the till holds. *)
Record till : Type := Till {
  cash25 : Z;
  cash50 : Z
}.

Definition empty_till : till := {| cash25 := 0; cash50 := 0 |}.

(** The callback given to [queue.every]: what it returns for one bill, and
    the till it leaves. A bill that is none of 25, 50 and 100 is accepted
    and leaves the till as it is. *)
Definition sell_one (t : till) (bill : Z) : bool * till :=
  if bill =? 25 then
    (true, {| cash25 := cash25 t + 1; cash50 := cash50 t |})
  else if bill =? 50 then
    if cash25 t =? 0 then (false, t)
    else (true, {| cash25 := cash25 t - 1; cash50 := cash50 t + 1 |})
  else if bill =? 100 then
    if (cash50 t >? 0) && (cash25 t >? 0) then
      (true, {| cash25 := cash25 t - 1; cash50 := cash50 t - 1 |})
    else if cash25 t >=? 3 then
      (true, {| cash25 := cash25 t - 3; cash50 := cash50 t |})
    else (false, t)
  else (true, t).

(** [Array.prototype.every] with that callback: it stops at the first bill
    the callback refuses. *)
Fixpoint every_bill (t : till) (queue : list Z) : bool * till :=
  match queue with
  | nil => (true, t)
  | bill :: rest =>
      let (ok, t') := sell_one t bill in
      if ok then every_bill t' rest else (false, t')
  end.

Definition sellTickets (queue : list Z) : bool :=
  fst (every_bill empty_till queue).

(** The bills the documentation lets a customer pay with. *)
Definition is_bill (bill : Z) : bool :=
  (bill =? 25) || (bill =? 50) || (bill =? 100).

(** Every way a seller holding [a] bills of 25 and [b] bills of 50 could
    serve a queue, giving each customer exact change in any way the till
    allows: for a bill of 100 either a 50 and a 25, or three 25. *)
Inductive can_serve : Z -> Z -> list Z -> Prop :=
| serve_nobody (a b : Z) : can_serve a b nil
| serve_25 (a b : Z) (q : list Z) :
    can_serve (a + 1) b q -> can_serve a b (25 :: q)
| serve_50 (a b : Z) (q : list Z) :
    1 <= a -> can_serve (a - 1) (b + 1) q -> can_serve a b (50 :: q)
| serve_100_with_50 (a b : Z) (q : list Z) :
    1 <= a -> 1 <= b -> can_serve (a - 1) (b - 1) q -> can_serve a b (100 :: q)
| serve_100_with_25s (a b : Z) (q : list Z) :
    3 <= a -> can_serve (a - 3) b q -> can_serve a b (100 :: q).

(** How many customers of a queue paid with a given bill. *)
Definition paid_with (bill : Z) (queue : list Z) : Z :=
  Z.of_nat (length (filter (fun x => x = bill) queue)).

(** Property names are compared as strings. *)
#[global] Instance string_eq_dec : EqDecision string := String.string_dec.

(** ** Keyed collections *)

(** The entries of a [Map], or the own properties of a plain object, in
    insertion order. *)
Section Entries.

Context {K W : Type} `{EqDecision K}.

(** [m.get(key)], [obj[key]] on an own property. *)
Fixpoint entries_get (m : list (K * W)) (key : K) : option W :=
  match m with
  | nil => None
  | (k, w) :: rest => if decide (k = key) then Some w else entries_get rest key
  end.

(** [m.has(key)] *)
Definition entries_has (m : list (K * W)) (key : K) : bool :=
  match entries_get m key with
  | Some _ => true
  | None => false
  end.

(** [m.set(key, w)], [obj[key] = w]: an existing key keeps its place, a
    new key goes last. *)
Fixpoint entries_set (m : list (K * W)) (key : K) (w : W) : list (K * W) :=
  match m with
  | nil => [(key, w)]
  | (k, old) :: rest =>
      if decide (k = key) then (k, w) :: rest
      else (k, old) :: entries_set rest key w
  end.

(** [delete obj[key]]: the others keep their order. *)
Definition entries_delete (m : list (K * W)) (key : K) : list (K * W) :=
  filter (fun e => fst e <> key) m.

End Entries.

Section EntriesOfArrays.

Context {K V : Type} `{EqDecision K}.

(** [m.get(key).push(value)]: the array held under [key] grows in place. *)
Fixpoint entries_push (m : list (K * list V)) (key : K) (value : V)
  : list (K * list V) :=
  match m with
  | nil => nil
  | (k, arr) :: rest =>
      if decide (k = key) then (k, (arr ++ [value])%list) :: rest
      else (k, arr) :: entries_push rest key value
  end.

End EntriesOfArrays.

(** The keys of a list in the order of their first occurrence. *)
Fixpoint first_occurrences {K : Type} `{EqDecision K} (l : list K) : list K :=
  match l with
  | nil => nil
  | x :: rest => x :: filter (fun y => y <> x) (first_occurrences rest)
  end.

(** ** [group] *)

Section Group.

Context {A K V : Type} `{EqDecision K}.

(** The body of [array.forEach] in [group]. *)
Definition group_step (keySelector : A -> K) (valueSelector : A -> V)
    (res : list (K * list V)) (item : A) : list (K * list V) :=
  let key := keySelector item in
  let value := valueSelector item in
  if entries_has res key
  then entries_push res key value
  else entries_set res key [value].

Definition group (array : list A) (keySelector : A -> K) (valueSelector : A -> V)
  : list (K * list V) :=
  fold_left (group_step keySelector valueSelector) array nil.

End Group.

(** ** Plain objects: [shallowCopy], [removeProperties], [isEmptyObject],
    [makeImmutable] *)

(** [Object.keys]: the own property names. *)
Definition Object_keys {W : Type} (props : list (string * W)) : list string :=
  props.*1.

(** What [removeProperties] receives as [keys]: an array of names, or
    anything else, which [delete] converts to one name. *)
Inductive keys_argument : Type :=
| KeysArray (names : list string)
| NotAnArray (name : string).

Definition names_of (keys : keys_argument) : list string :=
  match keys with
  | KeysArray names => names
  | NotAnArray name => [name]
  end.

Section PlainObjects.

(** The property values; none of these functions looks into them. *)
Context {V : Type}.

(** A plain data object: its own enumerable properties in insertion
    order, and whether [Object.freeze] was applied to it. *)
Record plain : Type := Plain {
  own : list (string * V);
  frozen : bool
}.

(** [Object.assign(target, source)] on the properties: each own property
    of the source is set on the target. Setting [__proto__] on a plain
    object runs the inherited setter and defines no own property. *)
Definition Object_assign (target source : list (string * V)) : list (string * V) :=
  fold_left
    (fun t e => if decide (fst e = "__proto__") then t else entries_set t (fst e) (snd e))
    source target.

(** [const res = {}; return Object.assign(res, obj)]: the copy is a new,
    unfrozen object. *)
Definition shallowCopy (obj : loc) (st : list plain) : loc * list plain :=
  let res := length st in
  let st := (st ++ [Plain nil false])%list in
  let source := default nil (own <$> st !! obj) in
  (res, alter (fun o => Plain (Object_assign (own o) source) (frozen o)) res st).

(** [delete o[key]] in non-strict code: on a frozen object it does nothing
    and does not throw. *)
Definition delete_own (key : string) (o : plain) : plain :=
  if frozen o then o else Plain (entries_delete (own o) key) (frozen o).

(** [res] is [obj] itself: the deletions act on the caller's object. *)
Definition removeProperties (obj : loc) (keys : keys_argument) (st : list plain)
  : loc * list plain :=
  let res := obj in
  match keys with
  | KeysArray names =>
      (res, fold_left (fun st key => alter (delete_own key) res st) names st)
  | NotAnArray name => (res, alter (delete_own name) res st)
  end.

Definition isEmptyObject (obj : loc) (st : list plain) : bool :=
  let keys := Object_keys (default nil (own <$> st !! obj)) in
  (length keys =? 0)%nat.

(** [Object.freeze(obj); return obj] *)
Definition makeImmutable (obj : loc) (st : list plain) : loc * list plain :=
  (obj, alter (fun o => Plain (own o) true) obj st).

End PlainObjects.

Arguments plain V : clear implicits.

(** ** [mergeObjects] and [compareObjects] *)

Section PropertyValues.

(** The property values, with the three things the code does with them:
    test them in a condition, add them with [+=], compare them with
    [===]. [inherited_value] is what [Object.prototype] holds under a
    name, if anything. *)
Context {V : Type}.
Variables (truthy : V -> bool) (plus : V -> V -> V) (identical : V -> V -> bool).
Variable inherited_value : string -> option V.

(** [obj[key]]: the own property, else the inherited one, else
    [undefined], here [None]. *)
Definition read_property (obj : list (string * V)) (key : string) : option V :=
  match entries_get obj key with
  | Some v => Some v
  | None => inherited_value key
  end.

(** [obj[key] = v] on a plain object: assigning to [__proto__] runs the
    inherited setter, which defines no own property (and, given a number
    or a string, does nothing at all). *)
Definition write_property (obj : list (string * V)) (key : string) (v : V)
  : list (string * V) :=
  if decide (key = "__proto__") then obj else entries_set obj key v.

(** A condition on a value that may be [undefined]. *)
Definition truthy_opt (a : option V) : bool :=
  match a with
  | Some v => truthy v
  | None => false
  end.

(** [a === b] on values that may be [undefined]. *)
Definition identical_opt (a b : option V) : bool :=
  match a, b with
  | Some x, Some y => identical x y
  | None, None => true
  | _, _ => false
  end.

(** The body of [entries.forEach] in [mergeObjects]. *)
Definition merge_entry (res : list (string * V)) (item : string * V)
  : list (string * V) :=
  let key := fst item in
  let val := snd item in
  match read_property res key with
  | Some cur =>
      if truthy cur then write_property res key (plus cur val)
      else write_property res key val
  | None => write_property res key val
  end.

Definition mergeObjects (objects : list (list (string * V))) : list (string * V) :=
  fold_left (fun res obj => fold_left merge_entry obj res) objects nil.

(** [keys1[i]] used as a property name: past the end it is [undefined],
    which names the property ["undefined"]. *)
Definition key_at (keys1 : list string) (i : nat) : string :=
  default "undefined" (keys1 !! i).

(** The condition of the [while] loop for one name. *)
Definition same_under (obj1 obj2 : list (string * V)) (key : string) : bool :=
  truthy_opt (read_property obj2 key)
  && identical_opt (read_property obj1 key) (read_property obj2 key).

(** The [while] loop: the value of [i] when it stops, or [None] when the
    fuel runs out first. *)
Fixpoint compare_loop (fuel : nat) (obj1 obj2 : list (string * V))
    (keys1 : list string) (i : nat) : option nat :=
  match fuel with
  | O => None
  | S fuel' =>
      if same_under obj1 obj2 (key_at keys1 i)
      then compare_loop fuel' obj1 obj2 keys1 (i + 1)
      else Some i
  end.

Definition compareObjects (fuel : nat) (obj1 obj2 : list (string * V)) : option bool :=
  let keys1 := Object_keys obj1 in
  (fun i => (i =? length keys1)%nat) <$> compare_loop fuel obj1 obj2 keys1 0.

(** How [mergeObjects] folds one more value into what a name holds. *)
Definition merge_value (acc : option V) (val : V) : option V :=
  match acc with
  | Some cur => if truthy cur then Some (plus cur val) else Some val
  | None => Some val
  end.

End PropertyValues.

(** The values the objects of an array hold under one name, in order. *)
Definition values_under {V : Type} (key : string) (objects : list (list (string * V)))
  : list V :=
  flat_map (fun obj => snd <$> filter (fun e => fst e = key) obj) objects.

(** *** Number values that are integers

    A JavaScript number is a double. The integers from
    [-(2^53 - 1)] to [2^53 - 1] are each a double of their own, and [+]
    on two of them is exact whenever the sum is again in that range; past
    it [+] rounds. The integer values of the objects are read as [Z], and
    [+] is a function on [Z] of which only this much is assumed. *)

Definition MAX_SAFE_INTEGER : Z := 2 ^ 53 - 1.

(** [Number.isSafeInteger] on an integer value. *)
Definition isSafeInteger (z : Z) : bool :=
  (- MAX_SAFE_INTEGER <=? z) && (z <=? MAX_SAFE_INTEGER).

(** What is known of [+] on numbers: on safe integers whose sum is a safe
    integer it is the sum. *)
Definition exact_on_safe_integers (plus : Z -> Z -> Z) : Prop :=
  forall a b : Z,
    isSafeInteger a = true -> isSafeInteger b = true ->
    isSafeInteger (a + b) = true -> plus a b = a + b.

(** The totals reached while the values are added one after the other,
    starting from [total]. *)
Fixpoint running_totals (total : Z) (vals : list Z) : list Z :=
  match vals with
  | nil => nil
  | v :: vals => (total + v) :: running_totals (total + v) vals
  end.

(** Every value, and every total on the way, is a safe integer. *)
Definition safely_summable (vals : list Z) : bool :=
  forallb isSafeInteger vals && forallb isSafeInteger (running_totals 0 vals).

(** A number is truthy unless it is zero. *)
Definition number_truthy (z : Z) : bool := negb (z =? 0).

(** ** [Array.prototype.sort] on strings *)

(** The default comparison of [sort]: strings are ordered unit by unit, a
    proper prefix before the longer string. *)
Definition string_le (a b : string) : Prop := String.leb a b = true.

#[global] Instance string_le_dec (a b : string) : Decision (string_le a b).
Proof. unfold string_le. apply _. Defined.

(** [arr.sort()] on an array of strings. The engine's algorithm is a merge
    sort; whatever the algorithm, the result is the one sorted arrangement
    of the elements, since equal strings cannot be told apart. *)
Definition sort (arr : list string) : list string := merge_sort string_le arr.

(** ** [sortCitiesArray] *)

Record place : Type := Place {
  country : string;
  city : string
}.

Section SortCities.

(** Which names [Object.prototype] defines ([constructor], [toString],
    ...): reading such a name on a plain object that has no own property
    of that name yields the inherited member, which is truthy and has no
    [push]. *)
Variable inherited : string -> bool.

(** The body of the first [forEach]. *)
Definition collect_step (dataCountry : list (string * list string)) (item : place)
  : completion (list (string * list string)) :=
  match entries_get dataCountry (country item) with
  | Some _ => Normal (entries_push dataCountry (country item) (city item))
  | None =>
      if inherited (country item) then Throw TypeError
      else Normal (entries_set dataCountry (country item) [city item])
  end.

Fixpoint collect (dataCountry : list (string * list string)) (arr : list place)
  : completion (list (string * list string)) :=
  match arr with
  | nil => Normal dataCountry
  | item :: rest =>
      match collect_step dataCountry item with
      | Normal dataCountry' => collect dataCountry' rest
      | Throw e => Throw e
      end
  end.

(** The second [forEach]: the sorted cities of each country, in turn. *)
Fixpoint emit (dataCountry : list (string * list string)) (countries : list string)
  : completion (list place) :=
  match countries with
  | nil => Normal nil
  | c :: rest =>
      match entries_get dataCountry c with
      | None => Throw TypeError
      | Some unsorted =>
          let cities := sort unsorted in
          match emit dataCountry rest with
          | Normal out => Normal ((Place c <$> cities) ++ out)%list
          | Throw e => Throw e
          end
      end
  end.

Definition sortCitiesArray (arr : list place) : completion (list place) :=
  match collect nil arr with
  | Throw e => Throw e
  | Normal dataCountry =>
      (* the order of [Object.keys] does not matter: the names are sorted at once *)
      let countries := sort (Object_keys dataCountry) in
      emit dataCountry countries
  end.

End SortCities.

(** The sorted cities of one country, as [emit] pushes them. *)
Definition block (d : list (string * list string)) (c : string) : list place :=
  Place c <$> sort (default nil (entries_get d c)).

(** Ascending by country name, then by city name. *)
Definition place_le (a b : place) : Prop :=
  string_le (country a) (country b) /\
  (country a = country b -> string_le (city a) (city b)).

(** The names [Object.prototype] defines in Node.js. *)
Definition Object_prototype_names : list string :=
  ["constructor"; "__defineGetter__"; "__defineSetter__"; "hasOwnProperty";
   "__lookupGetter__"; "__lookupSetter__"; "isPrototypeOf";
   "propertyIsEnumerable"; "toString"; "valueOf"; "__proto__";
   "toLocaleString"]%list.

Definition on_Object_prototype (name : string) : bool :=
  bool_decide (name ∈ Object_prototype_names).

(** The pairs a keyed collection of arrays holds, entry after entry. *)
Definition ungroup {K V : Type} (m : list (K * list V)) : list (K * V) :=
  flat_map (fun e => pair (fst e) <$> snd e) m.

(** ** [makeWord] *)

(** [while (currIndex > arr.length) arr.push('')]; the loop runs at most
    [currIndex] times, which is the fuel [place_letter] gives it. *)
Fixpoint push_blanks (fuel : nat) (currIndex : nat) (arr : list string)
  : list string :=
  match fuel with
  | O => arr
  | S fuel' =>
      if (length arr <? currIndex)%nat
      then push_blanks fuel' currIndex (arr ++ [EmptyString])%list
      else arr
  end.

(** [arr.splice(start, 1, item)]: the element at [start], if there is one,
    gives way to [item]; past the end, [item] is appended. *)
Definition splice1 (arr : list string) (start : nat) (item : string) : list string :=
  (take start arr ++ item :: drop (S start) arr)%list.

(** The body of the [for] loop, for one position of one letter. *)
Definition place_letter (key : string) (arr : list string) (currIndex : nat)
  : list string :=
  splice1 (push_blanks currIndex currIndex arr) currIndex key.

(** The array after both loops; [lettersObject] lists the letters in the
    order of [Object.keys]. *)
Definition makeWord_array (lettersObject : list (string * list nat)) : list string :=
  fold_left
    (fun arr entry => fold_left (place_letter (fst entry)) (snd entry) arr)
    lettersObject nil.

(** An array [agrees] with the word at an index when both hold the same
    letter there, or both end before it. *)
Definition agrees (arr word : list string) (q : nat) : Prop := arr !! q = word !! q.

Definition makeWord (lettersObject : list (string * list nat)) : string :=
  String.concat EmptyString (makeWord_array lettersObject).

(** * Part II: lemmas and theorems *)

(** ** The examples of the source's documentation *)

Example doc_example_1 :
  build [(Id, "main"); (Class, "container"); (Class, "editable")]%list
  = Normal (Str "#main.container.editable").
Proof. reflexivity. Qed.

Example doc_example_2 :
  build [(Element, "a"); (Attr, ("href$=" ++ dquote ++ ".png" ++ dquote)%string);
         (PseudoClass, "focus")]%list
  = Normal (Str ("a[href$=" ++ dquote ++ ".png" ++ dquote ++ "]:focus")).
Proof. reflexivity. Qed.

Example doc_example_3 :
  fst ((a <- chain [(Element, "div"); (Id, "main"); (Class, "container");
                    (Class, "draggable")]%list facade ;;
        b <- chain [(Element, "table"); (Id, "data")]%list facade ;;
        c <- chain [(Element, "tr"); (PseudoClass, "nth-of-type(even)")]%list facade ;;
        d <- chain [(Element, "td"); (PseudoClass, "nth-of-type(even)")]%list facade ;;
        cd <- combine facade c " " d ;;
        bcd <- combine facade b "~" cd ;;
        all <- combine facade a "+" bcd ;;
        stringify all) heap0)
  = Normal (Str "div#main.container.draggable + table#data ~ tr:nth-of-type(even)   td:nth-of-type(even)").
Proof. reflexivity. Qed.

Example element_twice_table_div :
  build [(Element, "table"); (Element, "div")]%list
  = Throw (Error duplicate_message).
Proof. reflexivity. Qed.

Example element_twice :
  build [(Element, "a"); (Element, "b")]%list = Normal (Str "ab").
Proof. reflexivity. Qed.

(** ** Strings *)

Section Strings.

Lemma append_assoc (a b c : string) : (a ++ b) ++ c = a ++ b ++ c.
Proof. induction a as [|x a IH]; [reflexivity|]. cbn. rewrite IH. reflexivity. Qed.

Lemma append_empty_r (a : string) : a ++ EmptyString = a.
Proof. induction a as [|x a IH]; [reflexivity|]. cbn. rewrite IH. reflexivity. Qed.

Lemma prefix_empty (s : string) : String.prefix EmptyString s = true.
Proof. destruct s; reflexivity. Qed.

Lemma prefix_self_app (sub t : string) : String.prefix sub (sub ++ t) = true.
Proof.
  induction sub as [|a sub IH]; [apply prefix_empty|]. cbn.
  destruct (ascii_dec a a); [exact IH | congruence].
Qed.

Lemma includes_unfold (s sub : string) :
  includes s sub =
  String.prefix sub s ||
  match s with EmptyString => false | String _ rest => includes rest sub end.
Proof. destruct s; reflexivity. Qed.

Lemma includes_app_r (s t sub : string) :
  includes t sub = true -> includes (s ++ t) sub = true.
Proof.
  intros H. induction s as [|a s IH]; [exact H|].
  change (String a s ++ t) with (String a (s ++ t)).
  rewrite includes_unfold, IH. apply orb_true_r.
Qed.

Lemma includes_here (sub t : string) : includes (sub ++ t) sub = true.
Proof. rewrite includes_unfold, prefix_self_app. reflexivity. Qed.

Lemma includes_empty (sub : string) :
  includes EmptyString sub = String.eqb sub EmptyString.
Proof. destruct sub; reflexivity. Qed.

End Strings.

(** ** The store *)

Section Store.

Variable field : object -> option string.

Lemma get_app (h t : heap) (l : loc) :
  (l < length h)%nat -> get field (h ++ t)%list l = get field h l.
Proof.
  intros Hl. unfold get, facade.
  rewrite (lookup_app_l h t l) by exact Hl.
  destruct l as [|l]; [reflexivity|].
  rewrite (lookup_app_l h t 0) by lia. reflexivity.
Qed.

Lemma get_fresh (h : heap) (o : object) (s : string) :
  field o = Some s -> get field (h ++ [o])%list (length h) = Str s.
Proof.
  intros Ho. unfold get.
  rewrite list_lookup_middle by reflexivity. rewrite Ho. reflexivity.
Qed.

Lemma get_dangling (h : heap) (l : loc) :
  (length h <= l)%nat -> get field h l = Undefined.
Proof.
  intros Hl. unfold get. rewrite lookup_ge_None_2 by exact Hl. reflexivity.
Qed.

Lemma get_defined (h : heap) (l : loc) (s : string) :
  get field h l = Str s -> (l < length h)%nat.
Proof.
  intros Hg. destruct (Nat.lt_ge_cases l (length h)) as [Hl|Hl]; [exact Hl|].
  rewrite get_dangling in Hg by exact Hl. discriminate.
Qed.

End Store.

Lemma pristine_get (h : heap) :
  pristine h ->
  get selector h facade = Str EmptyString /\
  get lastPart h facade = Str EmptyString.
Proof. unfold pristine, get. intros ->. split; reflexivity. Qed.

(** ** What each method does, in one equation *)

Lemma create_spec (this : loc) (s p : string) (h : heap) :
  create this s p h = (Normal (length h), (h ++ [Object (Some s) (Some p)])%list).
Proof.
  unfold create, bind, Object_create, set_selector, set_lastPart, ret.
  cbn. f_equal.
  rewrite <- (Nat.add_0_r (length h)).
  rewrite !alter_app_r. reflexivity.
Qed.

Lemma checkOrder_spec (this : loc) (part : string) (h : heap) :
  checkOrder this part h =
  if out_of_order (get lastPart h this) part
  then (Throw (Error order_message), h) else (Normal tt, h).
Proof.
  unfold checkOrder, bind, read, out_of_order.
  destruct (_ && _); reflexivity.
Qed.

Lemma validate_spec (this : loc) (cur newPart : string) (h : heap) :
  validate this (Str cur) newPart h =
  if (includes cur "table" && String.eqb newPart "div") || includes cur newPart
  then (Throw (Error duplicate_message), h) else (Normal tt, h).
Proof.
  unfold validate.
  destruct (includes cur "table" && String.eqb newPart "div");
    destruct (includes cur newPart); reflexivity.
Qed.

Lemma append_spec (c : category) (this : loc) (v : string) (h : heap) (cur : string) :
  get selector h this = Str cur ->
  append c this v h =
  if out_of_order (get lastPart h this) (part_name c)
  then (Throw (Error order_message), h)
  else if clashes c cur v
  then (Throw (Error duplicate_message), h)
  else (Normal (length h),
        (h ++ [Object (Some (cur ++ fragment c v)%string) (Some (part_name c))])%list).
Proof.
  intros Hcur.
  destruct c; unfold append, element, id, class, attr, pseudoClass, pseudoElement;
    unfold bind at 1; rewrite checkOrder_spec;
    destruct (out_of_order _ _); try reflexivity;
    unfold bind at 1; unfold read at 1; rewrite Hcur;
    cbn [clashes fragment part_name to_string];
    try apply create_spec;
    unfold bind at 1; rewrite validate_spec;
    repeat match goal with
      | |- context [String.eqb ?a ?b] =>
          match b with
          | "div" => progress change (String.eqb a b) with false
          end
      end;
    rewrite ?andb_false_r; cbn [orb];
    match goal with
    | |- context [includes cur "#"] => destruct (includes cur "#")
    | |- context [includes cur "::"] => destruct (includes cur "::")
    | |- _ => destruct ((includes cur "table" && String.eqb v "div") || includes cur v)
    end;
    try reflexivity;
    unfold bind at 1; unfold read at 1; rewrite Hcur;
    apply create_spec.
Qed.

Lemma append_out_of_order (c : category) (this : loc) (v : string) (h : heap) :
  out_of_order (get lastPart h this) (part_name c) = true ->
  append c this v h = (Throw (Error order_message), h).
Proof.
  intros Hout.
  destruct c; unfold append, element, id, class, attr, pseudoClass, pseudoElement;
    unfold bind at 1; rewrite checkOrder_spec;
    cbn [part_name] in Hout; rewrite Hout; reflexivity.
Qed.

Lemma append_in_order (c : category) (this : loc) (v : string) (h : heap) :
  out_of_order (get lastPart h this) (part_name c) = false ->
  fst (append c this v h) <> Throw (Error order_message).
Proof.
  intros Hout. destruct (get selector h this) as [|cur] eqn:Hsel.
  - destruct c; unfold append, element, id, class, attr, pseudoClass, pseudoElement;
      unfold bind at 1; rewrite checkOrder_spec;
      cbn [part_name] in Hout; rewrite Hout;
      unfold bind at 1; unfold read at 1; rewrite Hsel;
      try (rewrite create_spec; discriminate);
      unfold bind at 1; cbn [validate throw fst]; discriminate.
  - rewrite (append_spec c this v h cur Hsel), Hout.
    destruct (clashes c cur v); cbn [fst]; discriminate.
Qed.

Lemma combine_spec (this s1 : loc) (comb : string) (s2 : loc) (h : heap) :
  let text :=
    to_string (get selector (h ++ [Object None None])%list s1) ++ " " ++ comb
    ++ " " ++ to_string (get selector (h ++ [Object None None])%list s2) in
  combine this s1 comb s2 h =
  (Normal (S (length h)),
   (h ++ [Object None None] ++ [Object (Some text) (Some EmptyString)])%list).
Proof.
  cbv zeta. unfold combine, bind, Object_create, stringify, read.
  rewrite create_spec. rewrite length_app, Nat.add_1_r, <- app_assoc.
  reflexivity.
Qed.

(** ** The order as ranks *)

Lemma out_of_order_rank (c0 c : category) :
  out_of_order (Str (part_name c0)) (part_name c) = (rank c <? rank c0)%nat.
Proof. destruct c0, c; reflexivity. Qed.

Lemma out_of_order_unset (part : string) :
  out_of_order (Str EmptyString) part = false.
Proof. reflexivity. Qed.

Lemma pseudoElement_never_out_of_order (last : value) :
  out_of_order last "pseudoElement" = false.
Proof.
  unfold out_of_order.
  change (indexOf order (Str "pseudoElement")) with 5.
  unfold indexOf. cbn [indexOf_from order].
  repeat match goal with
         | |- context [strict_eq ?a last] => destruct (strict_eq a last)
         end; reflexivity.
Qed.

Lemma rank_inj (a b : category) : rank a = rank b -> a = b.
Proof. destruct a, b; intros H; try reflexivity; discriminate. Qed.

Lemma nondecreasing_head (a : nat) (rs : list nat) :
  nondecreasing (a :: rs) = true -> Forall (fun x => (a <= x)%nat) rs.
Proof.
  revert a. induction rs as [|b rs IH]; intros a H; [constructor|].
  cbn in H. apply andb_true_iff in H as [Hab Hrest].
  apply Nat.leb_le in Hab. constructor; [exact Hab|].
  eapply Forall_impl; [apply IH, Hrest|]. cbn. intros x Hx. lia.
Qed.

Lemma nondecreasing_tail (a : nat) (rs : list nat) :
  nondecreasing (a :: rs) = true -> nondecreasing rs = true.
Proof.
  destruct rs as [|b rs]; [reflexivity|]. cbn.
  intros H. apply andb_true_iff in H as [_ H]. exact H.
Qed.

Lemma occurrences_none (c : category) (cs : list call) :
  Forall (fun x => (rank c < x)%nat) (map (fun x => rank (fst x)) cs) ->
  occurrences c cs = 0%nat.
Proof.
  induction cs as [|[c' v] cs IH]; intros H; [reflexivity|].
  cbn in H. apply Forall_cons in H as [Hc H]. cbn.
  rewrite (IH H). unfold category_eqb.
  destruct (Nat.eqb_spec (rank c) (rank c')); [lia|reflexivity].
Qed.

Lemma render_includes_marker (c : category) (cs : list call) :
  c = Id \/ c = PseudoElement ->
  (1 <= occurrences c cs)%nat ->
  includes (render cs) (marker c) = true.
Proof.
  intros Hc. induction cs as [|[c' v] cs IH]; cbn [occurrences render]; [lia|].
  unfold category_eqb. destruct (Nat.eqb_spec (rank c) (rank c')) as [Heq|_].
  - intros _. apply rank_inj in Heq. subst c'.
    destruct Hc as [-> | ->]; cbn [fragment marker]; rewrite append_assoc;
      apply includes_here.
  - intros Hocc. apply includes_app_r, IH. lia.
Qed.

(** ** Chains *)

(** Whenever a chain completes, the state it returns holds the text it
    started from followed by the fragments in call order. *)
Lemma chain_text (cs : list call) :
  forall (h : heap) (this : loc) (cur : string) (built : loc) (h' : heap),
    get selector h this = Str cur ->
    chain cs this h = (Normal built, h') ->
    get selector h' built = Str (cur ++ render cs).
Proof.
  induction cs as [|[c v] cs IH]; intros h this cur built h' Hsel Hrun.
  - cbn in Hrun. injection Hrun as <- <-. cbn. rewrite append_empty_r. exact Hsel.
  - cbn [chain] in Hrun. unfold bind in Hrun.
    rewrite (append_spec c this v h cur Hsel) in Hrun.
    destruct (out_of_order _ _); [discriminate|].
    destruct (clashes c cur v); [discriminate|].
    apply IH with (cur := cur ++ fragment c v) in Hrun.
    + rewrite Hrun. cbn [render]. rewrite append_assoc. reflexivity.
    + apply get_fresh. reflexivity.
Qed.

(** A chain on a state that already has a last category completes when its
    categories do not fall below that category, it holds no element call
    and no fragment trips the compatibility check. *)
Lemma chain_ordered (cs : list call) :
  forall (h : heap) (this : loc) (cur : string) (c0 : category),
    get selector h this = Str cur ->
    get lastPart h this = Str (part_name c0) ->
    nondecreasing (rank c0 :: map (fun x => rank (fst x)) cs) = true ->
    occurrences Element cs = 0%nat ->
    clash_free_from cur cs = true ->
    exists (built : loc) (h' : heap),
      chain cs this h = (Normal built, h') /\
      get selector h' built = Str (cur ++ render cs).
Proof.
  induction cs as [|[c v] cs IH]; intros h this cur c0 Hsel Hlast Hord Hel Hfree.
  - exists this, h. cbn. rewrite append_empty_r. split; [reflexivity|exact Hsel].
  - cbn [chain]. unfold bind.
    rewrite (append_spec c this v h cur Hsel), Hlast, out_of_order_rank.
    cbn [map fst] in Hord.
    assert (Hle : (rank c0 <= rank c)%nat).
    { cbn in Hord. apply andb_true_iff in Hord as [Hle _].
      apply Nat.leb_le. exact Hle. }
    destruct (Nat.ltb_spec (rank c) (rank c0)) as [Hlt|_]; [lia|].
    cbn [clash_free_from] in Hfree. apply andb_true_iff in Hfree as [Hc Hfree].
    assert (Hclash : clashes c cur v = false).
    { destruct c; cbn [clashes]; try reflexivity.
      - cbn in Hel. discriminate.
      - apply negb_true_iff, Hc.
      - apply negb_true_iff, Hc. }
    rewrite Hclash.
    set (o := Object (Some (cur ++ fragment c v)) (Some (part_name c))).
    destruct (IH (h ++ [o])%list (length h) (cur ++ fragment c v) c)
      as (built & h' & Hrun & Hget).
    + apply get_fresh. reflexivity.
    + apply get_fresh. reflexivity.
    + apply nondecreasing_tail in Hord. exact Hord.
    + cbn [occurrences] in Hel.
      destruct (category_eqb Element c); [discriminate|exact Hel].
    + exact Hfree.
    + exists built, h'. split; [exact Hrun|].
      rewrite Hget. cbn [render]. rewrite append_assoc. reflexivity.
Qed.

(** ** Methods only ever extend the store *)

Create HintDb frame discriminated.

Section Frame.

Context {A B : Type}.

Lemma extends_ret (a : A) : extends (ret a).
Proof. intros h. exists nil. cbn. rewrite app_nil_r. reflexivity. Qed.

Lemma extends_throw (e : exn) : extends (@throw A e).
Proof. intros h. exists nil. cbn. rewrite app_nil_r. reflexivity. Qed.

Lemma extends_bind (m : M A) (k : A -> M B) :
  extends m -> (forall a, extends (k a)) -> extends (bind m k).
Proof.
  intros Hm Hk h. unfold bind. destruct (Hm h) as [t Ht].
  destruct (m h) as [[a|e] h1]; cbn in Ht; subst h1.
  - destruct (Hk a (h ++ t)%list) as [t' Ht']. exists (t ++ t')%list.
    rewrite Ht', <- app_assoc. reflexivity.
  - exists t. reflexivity.
Qed.

Lemma extends_if (b : bool) (m1 m2 : M A) :
  extends m1 -> extends m2 -> extends (if b then m1 else m2).
Proof. destruct b; trivial. Qed.

Lemma fresh_bind (m : M A) (k : A -> M loc) :
  extends m -> (forall a, fresh (k a)) -> fresh (bind m k).
Proof.
  intros Hm Hk h h' l. unfold bind. destruct (Hm h) as [t Ht].
  destruct (m h) as [[a|e] h1]; cbn in Ht; subst h1; [|discriminate].
  intros Hrun. apply Hk in Hrun. rewrite length_app in Hrun. lia.
Qed.

End Frame.

Lemma extends_read (field : object -> option string) (this : loc) :
  extends (read field this).
Proof. intros h. exists nil. cbn. rewrite app_nil_r. reflexivity. Qed.

Lemma extends_Object_create : extends Object_create.
Proof. intros h. eexists. reflexivity. Qed.

Lemma extends_create (this : loc) (s p : string) : extends (create this s p).
Proof. intros h. rewrite create_spec. eexists. reflexivity. Qed.

Lemma fresh_create (this : loc) (s p : string) : fresh (create this s p).
Proof. intros h h' l. rewrite create_spec. intros [= <- _]. reflexivity. Qed.

Lemma extends_validate (this : loc) (cur : value) (p : string) :
  extends (validate this cur p).
Proof.
  unfold validate. destruct cur; [apply extends_throw|]. cbv zeta.
  apply extends_if; [apply extends_throw | apply extends_ret].
Qed.

Lemma extends_checkOrder (this : loc) (part : string) :
  extends (checkOrder this part).
Proof.
  unfold checkOrder. apply extends_bind; [apply extends_read|]. intros last.
  cbv zeta. apply extends_if; [apply extends_throw | apply extends_ret].
Qed.

#[local] Hint Resolve extends_ret extends_throw extends_read extends_Object_create
  extends_create extends_validate extends_checkOrder fresh_create : frame.
#[local] Hint Extern 2 (extends (bind _ _)) => apply extends_bind; [|intro] : frame.
#[local] Hint Extern 2 (fresh (bind _ _)) => apply fresh_bind; [|intro] : frame.

Lemma extends_append (c : category) (this : loc) (v : string) :
  extends (append c this v).
Proof.
  destruct c; unfold append, element, id, class, attr, pseudoClass, pseudoElement;
    auto 12 with frame.
Qed.

Lemma fresh_append (c : category) (this : loc) (v : string) :
  fresh (append c this v).
Proof.
  destruct c; unfold append, element, id, class, attr, pseudoClass, pseudoElement;
    auto 12 with frame.
Qed.

Lemma extends_combine (this s1 : loc) (comb : string) (s2 : loc) :
  extends (combine this s1 comb s2).
Proof. unfold combine, stringify. auto 12 with frame. Qed.

Lemma fresh_combine (this s1 : loc) (comb : string) (s2 : loc) :
  fresh (combine this s1 comb s2).
Proof. unfold combine, stringify. auto 12 with frame. Qed.

Lemma run_extends (op : operation) (h : heap) :
  exists t : heap, run op h = (h ++ t)%list.
Proof.
  destruct op; cbn [run].
  - apply extends_append.
  - apply extends_combine.
  - apply extends_read.
Qed.

Lemma run_all_extends (ops : list operation) (h : heap) :
  exists t : heap, run_all ops h = (h ++ t)%list.
Proof.
  unfold run_all. revert h. induction ops as [|op ops IH]; intros h; cbn [fold_left].
  - exists nil. rewrite app_nil_r. reflexivity.
  - destruct (run_extends op h) as [t Ht]. rewrite Ht.
    destruct (IH (h ++ t)%list) as [t' Ht']. exists (t ++ t')%list.
    rewrite Ht', <- app_assoc. reflexivity.
Qed.

(** * The claims *)

(** ** Rendering of ordered chains *)

(** C1 (a defect of the code): the chain
    [attr('data-ns=a::b').pseudoElement('after')] respects the fixed order
    and calls [pseudoElement] once, so [stringify] has to return
    ['[data-ns=a::b]::after']. The code throws at the [pseudoElement]
    call, with the message that says a pseudo-element occurred more than
    once: [validate] searches the accumulated text for ['::'] and finds it
    inside the attribute. In the same way [element('a#b').id('c')] throws
    at its only [id] call, and [element('')] at its only call, the empty
    name being found in every text. *)
Theorem ordered_chain_spurious_duplicate_error :
  (respects_order [(Attr, "data-ns=a::b"); (PseudoElement, "after")]%list = true /\
   occurrences PseudoElement [(Attr, "data-ns=a::b"); (PseudoElement, "after")]%list
   = 1%nat /\
   render [(Attr, "data-ns=a::b"); (PseudoElement, "after")]%list
   = "[data-ns=a::b]::after" /\
   build [(Attr, "data-ns=a::b"); (PseudoElement, "after")]%list
   = Throw (Error duplicate_message)) /\
  (respects_order [(Element, "a#b"); (Id, "c")]%list = true /\
   occurrences Id [(Element, "a#b"); (Id, "c")]%list = 1%nat /\
   render [(Element, "a#b"); (Id, "c")]%list = "a#b#c" /\
   build [(Element, "a#b"); (Id, "c")]%list = Throw (Error duplicate_message)) /\
  (respects_order [(Element, EmptyString)]%list = true /\
   occurrences Element [(Element, EmptyString)]%list = 1%nat /\
   render [(Element, EmptyString)]%list = EmptyString /\
   build [(Element, EmptyString)]%list = Throw (Error duplicate_message)).
Proof. repeat split; reflexivity. Qed.

(** Where the textual check does not misfire, the code renders ordered
    chains as required: for every sequence of append calls whose
    categories respect the fixed order, with element, id and
    pseudo-element at most once, and in which the element name is not
    empty, the text before the id holds no ['#'] and the text before the
    pseudo-element holds no ['::'], the chain started on the facade
    completes and [stringify] returns the fragments in call order, each
    with the punctuation of its category. *)
Theorem stringify_renders_ordered_chain (h : heap) (cs : list call) :
  pristine h ->
  respects_order cs = true ->
  clash_free cs = true ->
  build_in h cs = Normal (Str (render cs)).
Proof.
  intros Hp Hord Hfree. apply pristine_get in Hp as [Hsel Hlast].
  unfold respects_order in Hord.
  apply andb_true_iff in Hord as [Hord _].
  apply andb_true_iff in Hord as [Hord _].
  apply andb_true_iff in Hord as [Hord Hel]. apply Nat.leb_le in Hel.
  unfold build_in, bind, stringify, read.
  destruct cs as [|[c v] cs]; [cbn; rewrite Hsel; reflexivity|].
  cbn [chain]. unfold bind at 1.
  rewrite (append_spec c facade v h EmptyString Hsel), Hlast, out_of_order_unset.
  unfold clash_free in Hfree. cbn [clash_free_from] in Hfree.
  apply andb_true_iff in Hfree as [Hc Hfree].
  assert (Hclash : clashes c EmptyString v = false).
  { destruct c; cbn [clashes]; try reflexivity.
    rewrite !includes_empty.
    change (String.eqb "table" EmptyString) with false. cbn [andb orb].
    apply negb_true_iff, Hc. }
  rewrite Hclash.
  set (o := Object (Some (EmptyString ++ fragment c v)) (Some (part_name c))).
  destruct (chain_ordered cs (h ++ [o])%list (length h) (EmptyString ++ fragment c v) c)
    as (built & h' & Hrun & Hget).
  - apply get_fresh. reflexivity.
  - apply get_fresh. reflexivity.
  - exact Hord.
  - cbn [occurrences] in Hel.
    destruct c; cbn in Hel; try lia;
      apply occurrences_none;
      (eapply Forall_impl; [apply (nondecreasing_head _ _ Hord)|]);
      cbn; intros x Hx; lia.
  - exact Hfree.
  - rewrite Hrun, Hget. reflexivity.
Qed.

Lemma stringify_renders_ordered_chain_witness :
  build_in heap0 [(Id, "main"); (Class, "container"); (Class, "editable")]%list
  = Normal (Str "#main.container.editable").
Proof.
  apply (stringify_renders_ordered_chain heap0
           [(Id, "main"); (Class, "container"); (Class, "editable")]%list);
    reflexivity.
Defined.

(** ** Repeated element, id and pseudo-element calls *)

(** C2 (a defect of the code): after [element('a')] a second call
    [element('b')] has to raise the duplicate-fragment error. The code
    returns a new state, whose text is ['ab']: an element leaves no mark
    of its own in the text, and [validate] only searches the text for the
    new name. The sibling methods, which share the check and its message,
    do throw on the same pattern: [id('a').id('b')] and
    [pseudoElement('a').pseudoElement('b')] raise the error at the second
    call. *)
Theorem repeated_element_call_returns :
  fst ((S <- chain [(Element, "a")]%list facade ;; element S "b") heap0)
  = Normal 2%nat /\
  build [(Element, "a"); (Element, "b")]%list = Normal (Str "ab") /\
  fst ((S <- chain [(Id, "a")]%list facade ;; id S "b") heap0)
  = Throw (Error duplicate_message) /\
  fst ((S <- chain [(PseudoElement, "a")]%list facade ;; pseudoElement S "b") heap0)
  = Throw (Error duplicate_message).
Proof. repeat split; reflexivity. Qed.

(** The two methods that do leave a mark: on every chain on which an id
    (a pseudo-element) has already been appended, a second [id]
    ([pseudoElement]) call throws at that call, whatever its argument.
    The order check comes first in every method, so the error is the
    order error where a category of higher rank was appended last, and
    the duplicate-fragment error otherwise. For [pseudoElement], which has
    the highest rank, it is always the duplicate-fragment error. *)
Theorem repeated_marker_call_raises (h0 : heap) (cs : list call) (c : category)
    (v : string) (S : loc) (h : heap) :
  pristine h0 ->
  chain cs facade h0 = (Normal S, h) ->
  c = Id \/ c = PseudoElement ->
  (1 <= occurrences c cs)%nat ->
  append c S v h =
  (Throw (Error (if out_of_order (get lastPart h S) (part_name c)
                 then order_message else duplicate_message)), h) /\
  (c = PseudoElement -> append c S v h = (Throw (Error duplicate_message), h)).
Proof.
  intros Hp Hrun Hc Hocc. apply pristine_get in Hp as [Hsel _].
  pose proof (chain_text cs h0 facade EmptyString S h Hsel Hrun) as Htext.
  cbn [String.append] in Htext.
  pose proof (render_includes_marker c cs Hc Hocc) as Hmark.
  assert (Hclash : clashes c (render cs) v = true).
  { destruct Hc as [-> | ->]; exact Hmark. }
  rewrite (append_spec c S v h (render cs) Htext), Hclash.
  split.
  - destruct (out_of_order _ _); reflexivity.
  - intros ->. cbn [part_name]. rewrite pseudoElement_never_out_of_order.
    reflexivity.
Qed.

Lemma repeated_marker_call_raises_witness :
  append Id 1%nat "b" (snd (id facade "a" heap0))
  = (Throw (Error duplicate_message), snd (id facade "a" heap0)).
Proof.
  apply (proj1 (repeated_marker_call_raises heap0 [(Id, "a")]%list Id "b" 1%nat
                  (snd (id facade "a" heap0))
                  ltac:(reflexivity) ltac:(reflexivity)
                  ltac:(left; reflexivity) ltac:(cbn; lia))).
Defined.

(** The order check runs first: a second [id] call made after a [class]
    call raises the order error. *)
Lemma repeated_id_after_class_raises_order_error :
  fst ((S <- chain [(Id, "a"); (Class, "b")]%list facade ;; id S "c") heap0)
  = Throw (Error order_message).
Proof. reflexivity. Qed.

(** ** The order check *)

(** C3: on a state whose last-appended category is set, appending a
    category of strictly lower rank raises the order error, and for a
    category of equal or higher rank the order check passes and the append
    does not raise the order error; on the initial empty state the order
    check passes for every category, so no first append raises the order
    error; and [id] after [class] raises the order error. *)
Theorem order_check_by_rank (h : heap) (S : loc) (c0 c : category) (v : string) :
  get lastPart h S = Str (part_name c0) ->
  (if (rank c <? rank c0)%nat
   then append c S v h = (Throw (Error order_message), h)
   else checkOrder S (part_name c) h = (Normal tt, h) /\
        fst (append c S v h) <> Throw (Error order_message)) /\
  (forall (c' : category) (v' : string),
      checkOrder facade (part_name c') heap0 = (Normal tt, heap0) /\
      fst (append c' facade v' heap0) <> Throw (Error order_message)) /\
  (forall x y : string,
      build [(Class, x); (Id, y)]%list = Throw (Error order_message)).
Proof.
  intros Hlast. split; [|split].
  - destruct (rank c <? rank c0)%nat eqn:Hrank.
    + apply append_out_of_order. rewrite Hlast, out_of_order_rank. exact Hrank.
    + split.
      * rewrite checkOrder_spec, Hlast, out_of_order_rank, Hrank. reflexivity.
      * apply append_in_order. rewrite Hlast, out_of_order_rank. exact Hrank.
  - intros c' v'. split.
    + rewrite checkOrder_spec. reflexivity.
    + apply append_in_order. reflexivity.
  - intros x y. reflexivity.
Qed.

Lemma order_check_by_rank_witness :
  append Id 1%nat "main" (snd (class facade "container" heap0))
  = (Throw (Error order_message), snd (class facade "container" heap0)).
Proof.
  apply (proj1 (order_check_by_rank (snd (class facade "container" heap0))
                  1%nat Class Id "main" ltac:(reflexivity))).
Defined.

(** ** [combine] *)

(** C4: for built states [A] and [B] and any combinator string [c],
    [combine(A, c, B)] returns a state whose [stringify] is the text of
    [A], one space, [c] as given, one space, the text of [B]. *)
Theorem combine_stringify (h : heap) (this A B : loc) (c a b : string) :
  stringify A h = (Normal (Str a), h) ->
  stringify B h = (Normal (Str b), h) ->
  exists (l : loc) (h' : heap),
    combine this A c B h = (Normal l, h') /\
    stringify l h' = (Normal (Str (a ++ " " ++ c ++ " " ++ b)), h').
Proof.
  unfold stringify, read. intros [= HA] [= HB].
  rewrite combine_spec.
  rewrite !get_app by (eapply get_defined; eassumption).
  rewrite HA, HB. cbn [to_string].
  eexists _, _. split; [reflexivity|]. f_equal. f_equal.
  rewrite app_assoc.
  replace (S (length h)) with (length (h ++ [Object None None])%list)
    by (rewrite length_app; cbn; lia).
  apply get_fresh. reflexivity.
Qed.

Lemma combine_stringify_witness :
  exists (l : loc) (h' : heap),
    combine facade 1%nat "+" 2%nat
      (snd (id facade "b" (snd (element facade "a" heap0)))) = (Normal l, h') /\
    stringify l h' = (Normal (Str "a + #b"), h').
Proof.
  apply (combine_stringify (snd (id facade "b" (snd (element facade "a" heap0))))
           facade 1%nat 2%nat "+" "a" "#b"); reflexivity.
Defined.

(** C6: the state [combine] returns has its category tracking reset: its
    last category is unset, so for every fragment category the order check
    passes on it and an append of that category never raises the order
    error. *)
Theorem combine_resets_order (h : heap) (this A B : loc) (c v : string)
    (cat : category) :
  exists (l : loc) (h' : heap),
    combine this A c B h = (Normal l, h') /\
    get lastPart h' l = Str EmptyString /\
    checkOrder l (part_name cat) h' = (Normal tt, h') /\
    fst (append cat l v h') <> Throw (Error order_message).
Proof.
  rewrite combine_spec. cbv zeta. eexists _, _. split; [reflexivity|].
  set (h' := (h ++ _ ++ _)%list).
  assert (Hlen : S (length h) = length (h ++ [Object None None])%list)
    by (rewrite length_app; cbn; lia).
  assert (Hlast : get lastPart h' (S (length h)) = Str EmptyString).
  { subst h'. rewrite app_assoc, Hlen. apply get_fresh. reflexivity. }
  split; [exact Hlast|]. split.
  - rewrite checkOrder_spec, Hlast, out_of_order_unset. reflexivity.
  - apply append_in_order. rewrite Hlast. apply out_of_order_unset.
Qed.

(** ** Immutability *)

(** C5: no operation mutates an existing state. Whatever operations follow
    (appends on it, combines that take it as an operand, calls on any
    other object), a state [S] of the store keeps the text [stringify]
    returns and its last-appended category; and the state an append or a
    combine returns is a new object, never [S] itself. *)
Theorem operations_never_mutate (h : heap) (S : loc) (ops : list operation) :
  (S < length h)%nat ->
  fst (stringify S (run_all ops h)) = fst (stringify S h) /\
  get lastPart (run_all ops h) S = get lastPart h S /\
  (forall c this v l h',
      append c this v h = (Normal l, h') -> (length h <= l)%nat /\ l <> S) /\
  (forall this s1 comb s2 l h',
      combine this s1 comb s2 h = (Normal l, h') -> (length h <= l)%nat /\ l <> S).
Proof.
  intros HS. destruct (run_all_extends ops h) as [t Ht]. rewrite Ht.
  unfold stringify, read. cbn [fst].
  rewrite !get_app by exact HS.
  split; [reflexivity|]. split; [reflexivity|]. split.
  - intros c this v l h' Hrun. apply fresh_append in Hrun. lia.
  - intros this s1 comb s2 l h' Hrun. apply fresh_combine in Hrun. lia.
Qed.

Lemma operations_never_mutate_witness :
  fst (stringify 1%nat
         (run_all [Append Class 1%nat "x"; Combine facade 1%nat "+" 1%nat]%list
            (snd (id facade "main" heap0))))
  = Normal (Str "#main").
Proof.
  apply (proj1 (operations_never_mutate (snd (id facade "main" heap0)) 1%nat
                  [Append Class 1%nat "x"; Combine facade 1%nat "+" 1%nat]%list
                  ltac:(cbn; lia))).
Defined.

(** C10: the shared facade object is never modified. After any sequence of
    element, id, class, attr, pseudoClass, pseudoElement, combine and
    stringify calls on any objects, the facade's own [selector] and
    [lastPart] are still the empty string, so a chain started on the facade
    starts from the empty state. *)
Theorem facade_never_modified (ops : list operation) :
  run_all ops heap0 !! facade = Some cssSelectorBuilder /\
  get selector (run_all ops heap0) facade = Str EmptyString /\
  get lastPart (run_all ops heap0) facade = Str EmptyString.
Proof.
  assert (Hp : pristine (run_all ops heap0)).
  { destruct (run_all_extends ops heap0) as [t Ht]. rewrite Ht. reflexivity. }
  split; [exact Hp|]. apply pristine_get, Hp.
Qed.

(** C7: [stringify] on the facade itself, before any append, returns the
    empty string. *)
Theorem stringify_empty_initial_state :
  stringify facade heap0 = (Normal (Str EmptyString), heap0).
Proof. reflexivity. Qed.

(** ** The compatibility check *)

(** C8 (as amended): on every state whose text contains ['table'],
    [element('div')] throws, whether or not an element was appended
    before: the duplicate-fragment error where the order check permits
    [element] on that state, the order error where it does not. *)
Theorem table_div_special_case (h : heap) (S : loc) (cur : string) :
  get selector h S = Str cur ->
  includes cur "table" = true ->
  element S "div" h =
  (Throw (Error (if out_of_order (get lastPart h S) "element"
                 then order_message else duplicate_message)), h).
Proof.
  intros Hsel Htable.
  change (element S "div" h) with (append Element S "div" h).
  rewrite (append_spec Element S "div" h cur Hsel). cbn [part_name clashes].
  rewrite Htable. destruct (out_of_order _ _); reflexivity.
Qed.

Lemma table_div_special_case_witness :
  element 3%nat "div"
    (snd (combine facade 1%nat ">" 1%nat (snd (class facade "table" heap0))))
  = (Throw (Error duplicate_message),
     snd (combine facade 1%nat ">" 1%nat (snd (class facade "table" heap0)))).
Proof.
  apply (table_div_special_case
           (snd (combine facade 1%nat ">" 1%nat (snd (class facade "table" heap0))))
           3%nat ".table > .table"); reflexivity.
Defined.

(** C8 (as stated) fails: the text built by [id('table')] contains
    ['table'], yet [element('div')] on it raises the order error, which the
    order check throws before the compatibility check runs. *)
Lemma table_div_counterexample :
  fst (stringify 1%nat (snd (id facade "table" heap0))) = Normal (Str "#table") /\
  includes "#table" "table" = true /\
  fst (element 1%nat "div" (snd (id facade "table" heap0)))
  = Throw (Error order_message) /\
  Throw (A := loc) (Error order_message) <> Throw (Error duplicate_message).
Proof. repeat split; try reflexivity. discriminate. Qed.

(** C9: on a state where the order check permits the call, [id] raises the
    duplicate-fragment error exactly when the accumulated text contains
    ['#'], and [pseudoElement] exactly when it contains ['::'], whatever
    the argument and whatever was appended before; otherwise they return
    the extended state. So after [element('a#b')] a following [id] fails. *)
Theorem marker_decides_duplicate (h : heap) (S : loc) (cur name : string) :
  get selector h S = Str cur ->
  (checkOrder S "id" h = (Normal tt, h) ->
   id S name h =
   if includes cur "#" then (Throw (Error duplicate_message), h)
   else (Normal (length h),
         (h ++ [Object (Some (cur ++ "#" ++ name)%string) (Some "id")])%list)) /\
  (checkOrder S "pseudoElement" h = (Normal tt, h) ->
   pseudoElement S name h =
   if includes cur "::" then (Throw (Error duplicate_message), h)
   else (Normal (length h),
         (h ++ [Object (Some (cur ++ "::" ++ name)%string)
                  (Some "pseudoElement")])%list)) /\
  (forall y : string,
      build [(Element, "a#b"); (Id, y)]%list = Throw (Error duplicate_message)).
Proof.
  intros Hsel. split; [|split].
  - intros Hord. rewrite checkOrder_spec in Hord.
    change (id S name h) with (append Id S name h).
    rewrite (append_spec Id S name h cur Hsel). cbn [part_name].
    destruct (out_of_order _ _); [discriminate|reflexivity].
  - intros Hord. rewrite checkOrder_spec in Hord.
    change (pseudoElement S name h) with (append PseudoElement S name h).
    rewrite (append_spec PseudoElement S name h cur Hsel). cbn [part_name].
    destruct (out_of_order _ _); [discriminate|reflexivity].
  - intros y. reflexivity.
Qed.

Lemma marker_decides_duplicate_witness :
  id 1%nat "c" (snd (element facade "a#b" heap0))
  = (Throw (Error duplicate_message), snd (element facade "a#b" heap0)).
Proof.
  apply (proj1 (marker_decides_duplicate (snd (element facade "a#b" heap0))
                  1%nat "a#b" "c" ltac:(reflexivity)) ltac:(reflexivity)).
Defined.

(** * Beyond the builder: the other exercises of the file *)

(** ** [sellTickets] *)

Example sellTickets_doc_1 : sellTickets [25; 25; 50]%list = true.
Proof. reflexivity. Qed.

Example sellTickets_doc_2 : sellTickets [25; 100]%list = false.
Proof. reflexivity. Qed.

Lemma sell_one_cases (t : till) (bill : Z) :
  (bill = 25 /\ sell_one t bill = (true, Till (cash25 t + 1) (cash50 t))) \/
  (bill = 50 /\ cash25 t = 0 /\ sell_one t bill = (false, t)) \/
  (bill = 50 /\ cash25 t <> 0 /\
   sell_one t bill = (true, Till (cash25 t - 1) (cash50 t + 1))) \/
  (bill = 100 /\ 0 < cash50 t /\ 0 < cash25 t /\
   sell_one t bill = (true, Till (cash25 t - 1) (cash50 t - 1))) \/
  (bill = 100 /\ ~ (0 < cash50 t /\ 0 < cash25 t) /\ 3 <= cash25 t /\
   sell_one t bill = (true, Till (cash25 t - 3) (cash50 t))) \/
  (bill = 100 /\ ~ (0 < cash50 t /\ 0 < cash25 t) /\ cash25 t < 3 /\
   sell_one t bill = (false, t)) \/
  (is_bill bill = false /\ sell_one t bill = (true, t)).
Proof.
  unfold sell_one, is_bill.
  destruct (Z.eqb_spec bill 25) as [->|H25]; [left; split; reflexivity|].
  destruct (Z.eqb_spec bill 50) as [->|H50].
  { destruct (Z.eqb_spec (cash25 t) 0) as [H|H].
    - right; left. repeat split; assumption.
    - right; right; left. repeat split; assumption. }
  destruct (Z.eqb_spec bill 100) as [->|H100].
  { destruct (Z.gtb_spec (cash50 t) 0) as [Hb|Hb];
      destruct (Z.gtb_spec (cash25 t) 0) as [Ha|Ha]; cbn [andb].
    1: { do 3 right; left. repeat split; lia. }
    all: destruct (Z.geb_spec (cash25 t) 3) as [H3|H3];
      [ do 4 right; left; repeat split; lia
      | do 5 right; left; repeat split; lia ]. }
  do 6 right. split; reflexivity.
Qed.

Lemma every_bill_cons (t : till) (bill : Z) (rest : list Z) :
  every_bill t (bill :: rest) =
  if fst (sell_one t bill) then every_bill (snd (sell_one t bill)) rest
  else (false, snd (sell_one t bill)).
Proof. cbn [every_bill]. destruct (sell_one t bill) as [[|] t']; reflexivity. Qed.

(** The greedy run is itself a way to serve the queue. *)
Lemma every_bill_sound (queue : list Z) :
  forall a b : Z,
    0 <= a -> 0 <= b ->
    Forall (fun bill => is_bill bill = true) queue ->
    fst (every_bill (Till a b) queue) = true ->
    can_serve a b queue.
Proof.
  induction queue as [|bill rest IH]; intros a b Ha Hb Hbills Hrun; [constructor|].
  apply Forall_cons in Hbills as [Hbill Hbills].
  rewrite every_bill_cons in Hrun.
  destruct (sell_one_cases (Till a b) bill)
    as [(-> & E)|[(-> & H0 & E)|[(-> & H0 & E)|[(-> & H1 & H2 & E)
       |[(-> & H1 & H2 & E)|[(-> & H1 & H2 & E)|(Hn & E)]]]]]];
    rewrite E in Hrun; cbn [fst snd cash25 cash50] in *; try discriminate.
  - apply serve_25. apply IH; try lia; assumption.
  - apply serve_50; [lia|]. apply IH; try lia; assumption.
  - apply serve_100_with_50; [lia|lia|]. apply IH; try lia; assumption.
  - apply serve_100_with_25s; [lia|]. apply IH; try lia; assumption.
  - congruence.
Qed.

(** Whatever way serves the queue from a till with the same value and no
    more bills of 25, the greedy run serves it too. *)
Lemma every_bill_complete (queue : list Z) (a b : Z) :
  can_serve a b queue ->
  forall t : till,
    0 <= a -> 0 <= b -> 0 <= cash50 t -> a <= cash25 t ->
    a + 2 * b = cash25 t + 2 * cash50 t ->
    fst (every_bill t queue) = true.
Proof.
  induction 1 as [a b|a b q _ IH|a b q Ha _ IH|a b q Ha Hb _ IH|a b q Ha _ IH];
    intros t Ha0 Hb0 Ht50 Hle Hval; [reflexivity|..];
    rewrite every_bill_cons;
    match goal with
    | |- context [sell_one t ?bill] =>
        destruct (sell_one_cases t bill)
          as [(Hb25 & E)|[(Hb50 & H0 & E)|[(Hb50 & H0 & E)|[(Hb100 & H1 & H2 & E)
             |[(Hb100 & H1 & H2 & E)|[(Hb100 & H1 & H2 & E)|(Hn & E)]]]]]]
    end;
    try discriminate; rewrite E; cbn [fst snd];
    try (apply IH; cbn [cash25 cash50]; lia);
    try lia.
Qed.

(** X1: on a queue of bills of 25, 50 and 100, [sellTickets] answers true
    exactly when some way of giving change serves everybody: preferring a
    50 and a 25 over three 25 for a bill of 100 never loses a sale. *)
Theorem sellTickets_greedy_is_optimal (queue : list Z) :
  Forall (fun bill => is_bill bill = true) queue ->
  sellTickets queue = true <-> can_serve 0 0 queue.
Proof.
  intros Hbills. unfold sellTickets. split.
  - intros Hrun.
    apply (every_bill_sound queue 0 0); try lia; assumption.
  - intros Hserve.
    apply (every_bill_complete queue 0 0 Hserve empty_till); cbn; lia.
Qed.

Lemma sellTickets_greedy_is_optimal_witness :
  sellTickets [25; 25; 25; 25; 25; 50; 100; 100]%list = true.
Proof.
  apply (proj2 (sellTickets_greedy_is_optimal
                  [25; 25; 25; 25; 25; 50; 100; 100]%list
                  ltac:(repeat constructor))).
  apply serve_25, serve_25, serve_25, serve_25, serve_25; cbn.
  apply serve_50; [lia|]; cbn.
  apply serve_100_with_50; [lia|lia|]; cbn.
  apply serve_100_with_25s; [lia|]; cbn.
  apply serve_nobody.
Defined.

(** X2: a bill that is none of 25, 50 and 100 is accepted without touching
    the till: dropping such bills from the queue changes neither the answer
    nor the change the seller ends with. *)
Theorem sellTickets_ignores_other_bills (queue : list Z) :
  every_bill empty_till (filter (fun bill => is_bill bill = true) queue)
  = every_bill empty_till queue /\
  sellTickets (filter (fun bill => is_bill bill = true) queue) = sellTickets queue.
Proof.
  assert (H : forall t, every_bill t (filter (fun bill => is_bill bill = true) queue)
                        = every_bill t queue).
  { induction queue as [|bill rest IH]; intros t; [reflexivity|].
    rewrite filter_cons. destruct (decide (is_bill bill = true)) as [Hb|Hb].
    - rewrite !every_bill_cons, !IH. reflexivity.
    - rewrite IH, every_bill_cons.
      destruct (sell_one_cases t bill)
        as [(-> & E)|[(-> & H0 & E)|[(-> & H0 & E)|[(-> & H1 & H2 & E)
           |[(-> & H1 & H2 & E)|[(-> & H1 & H2 & E)|(Hn & E)]]]]]];
        try (exfalso; apply Hb; reflexivity).
      rewrite E. reflexivity. }
  split; [apply H|]. unfold sellTickets. rewrite H. reflexivity.
Qed.

Lemma every_bill_app (q1 q2 : list Z) :
  forall t : till,
    every_bill t (q1 ++ q2)%list =
    if fst (every_bill t q1)
    then every_bill (snd (every_bill t q1)) q2
    else every_bill t q1.
Proof.
  induction q1 as [|bill rest IH]; intros t; [reflexivity|].
  change ((bill :: rest) ++ q2)%list with (bill :: (rest ++ q2))%list.
  rewrite !every_bill_cons. destruct (fst (sell_one t bill)); [apply IH|reflexivity].
Qed.

(** X3: a queue made of two parts is served exactly when the first part is
    served and the second part is served from the till the first part
    leaves; so every prefix of a served queue is served. *)
Theorem sellTickets_app (q1 q2 : list Z) :
  sellTickets (q1 ++ q2)%list
  = sellTickets q1 && fst (every_bill (snd (every_bill empty_till q1)) q2).
Proof.
  unfold sellTickets. rewrite every_bill_app.
  destruct (every_bill empty_till q1) as [[|] t1]; reflexivity.
Qed.

Lemma paid_with_cons (x bill : Z) (rest : list Z) :
  paid_with x (bill :: rest) = (if decide (bill = x) then 1 else 0) + paid_with x rest.
Proof.
  unfold paid_with. rewrite filter_cons.
  destruct (decide (bill = x)); cbn [length]; lia.
Qed.

Lemma every_bill_invariant (queue : list Z) :
  forall a b : Z,
    0 <= a -> 0 <= b ->
    0 <= cash25 (snd (every_bill (Till a b) queue)) /\
    0 <= cash50 (snd (every_bill (Till a b) queue)) /\
    (fst (every_bill (Till a b) queue) = true ->
     25 * cash25 (snd (every_bill (Till a b) queue))
     + 50 * cash50 (snd (every_bill (Till a b) queue))
     + 100 * paid_with 100 queue
     = 25 * a + 50 * b
       + 25 * (paid_with 25 queue + paid_with 50 queue + paid_with 100 queue)).
Proof.
  induction queue as [|bill rest IH]; intros a b Ha Hb.
  - cbn. unfold paid_with. cbn. lia.
  - rewrite every_bill_cons, !paid_with_cons.
    destruct (sell_one_cases (Till a b) bill)
      as [(-> & E)|[(-> & H0 & E)|[(-> & H0 & E)|[(-> & H1 & H2 & E)
         |[(-> & H1 & H2 & E)|[(-> & H1 & H2 & E)|(Hn & E)]]]]]];
      rewrite E; cbn [fst snd cash25 cash50] in *;
      try (split; [exact Ha|split; [exact Hb|discriminate]]);
      match goal with
      | |- context [every_bill (Till ?a' ?b') rest] =>
          destruct (IH a' b') as (I1 & I2 & I3); try lia;
          split; [exact I1|split; [exact I2|]];
          intros Hrun; specialize (I3 Hrun)
      end;
      try (unfold is_bill in Hn);
      repeat (destruct (decide _); subst; try discriminate); lia.
Qed.

(** X4: the seller's counts of 25 and 50 bills never go below zero,
    whatever the queue and whether or not the sale was refused. *)
Theorem sellTickets_till_never_negative (queue : list Z) :
  0 <= cash25 (snd (every_bill empty_till queue)) /\
  0 <= cash50 (snd (every_bill empty_till queue)).
Proof.
  destruct (every_bill_invariant queue 0 0) as (H1 & H2 & _); try lia.
  split; assumption.
Qed.

(** X5: when everybody is served, the money taken is the ticket price for
    each paying customer: the 25s and 50s left in the till plus the 100s
    received are worth 25 per customer who paid with a 25, a 50 or a 100. *)
Theorem sellTickets_conserves_money (queue : list Z) :
  sellTickets queue = true ->
  25 * cash25 (snd (every_bill empty_till queue))
  + 50 * cash50 (snd (every_bill empty_till queue))
  + 100 * paid_with 100 queue
  = 25 * (paid_with 25 queue + paid_with 50 queue + paid_with 100 queue).
Proof.
  intros Hrun.
  destruct (every_bill_invariant queue 0 0) as (_ & _ & H); try lia.
  specialize (H Hrun). fold empty_till in H. lia.
Qed.

Lemma sellTickets_conserves_money_witness :
  25 * cash25 (snd (every_bill empty_till [25; 25; 50; 25; 100]%list))
  + 50 * cash50 (snd (every_bill empty_till [25; 25; 50; 25; 100]%list))
  + 100 * paid_with 100 [25; 25; 50; 25; 100]%list
  = 25 * (paid_with 25 [25; 25; 50; 25; 100]%list
          + paid_with 50 [25; 25; 50; 25; 100]%list
          + paid_with 100 [25; 25; 50; 25; 100]%list).
Proof.
  apply (sellTickets_conserves_money [25; 25; 50; 25; 100]%list). reflexivity.
Defined.

(** ** Keyed collections of arrays *)

Section EntriesFacts.

Context {K W : Type} `{EqDecision K}.

Implicit Types (m : list (K * W)) (key k : K) (w : W).

Lemma entries_get_set m key w k :
  entries_get (entries_set m key w) k =
  if decide (key = k) then Some w else entries_get m k.
Proof.
  induction m as [|[k0 old] rest IH]; cbn.
  - destruct (decide (key = k)); reflexivity.
  - destruct (decide (k0 = key)) as [->|Hne]; cbn.
    + destruct (decide (key = k)); reflexivity.
    + rewrite IH. destruct (decide (k0 = k)) as [->|]; [|reflexivity].
      destruct (decide (key = k)); [congruence|reflexivity].
Qed.

Lemma entries_get_None m key :
  entries_get m key = None <-> key ∉ m.*1.
Proof.
  induction m as [|[k0 old] rest IH]; cbn.
  - split; [intros _; apply not_elem_of_nil|reflexivity].
  - rewrite not_elem_of_cons. destruct (decide (k0 = key)) as [->|Hne].
    + split; [discriminate|intros [Hk _]; congruence].
    + rewrite IH. split; [intros Hr; split; [congruence|exact Hr]|intros [_ Hr]; exact Hr].
Qed.

Lemma entries_set_new_keys m key w :
  entries_get m key = None -> (entries_set m key w).*1 = (m.*1 ++ [key])%list.
Proof.
  induction m as [|[k0 old] rest IH]; [reflexivity|]. cbn.
  destruct (decide (k0 = key)); [discriminate|]. intros Hr. cbn.
  rewrite (IH Hr). reflexivity.
Qed.

Lemma entries_get_delete m key k :
  entries_get (entries_delete m key) k =
  if decide (key = k) then None else entries_get m k.
Proof.
  unfold entries_delete. induction m as [|[k0 old] rest IH].
  - cbn. destruct (decide (key = k)); reflexivity.
  - rewrite filter_cons. cbn [fst].
    destruct (decide (k0 <> key)) as [Hne|Heq]; cbn [entries_get].
    + rewrite IH. destruct (decide (k0 = k)) as [->|]; [|reflexivity].
      destruct (decide (key = k)); [congruence|reflexivity].
    + assert (k0 = key) as -> by (destruct (decide (k0 = key)); [assumption|contradiction]).
      rewrite IH. destruct (decide (key = k)); reflexivity.
Qed.

Lemma entries_get_elem_of m key w :
  NoDup m.*1 -> (key, w) ∈ m -> entries_get m key = Some w.
Proof.
  induction m as [|[k0 old] rest IH]; cbn.
  - intros _ Hin. apply elem_of_nil in Hin. contradiction.
  - intros Hnd Hin. apply NoDup_cons in Hnd as [Hk0 Hnd].
    apply elem_of_cons in Hin as [[= -> ->]|Hin].
    + rewrite decide_True by reflexivity. reflexivity.
    + destruct (decide (k0 = key)) as [->|Hne]; [|apply IH; assumption].
      exfalso. apply Hk0. apply list_elem_of_fmap. exists (key, w). split; [reflexivity|exact Hin].
Qed.

End EntriesFacts.

Section EntriesOfArraysFacts.

Context {K V : Type} `{EqDecision K}.

Implicit Types (m : list (K * list V)) (key k : K) (arr : list V) (value : V).

Lemma entries_get_push m key value k :
  entries_get (entries_push m key value) k =
  if decide (key = k)
  then (fun arr => (arr ++ [value])%list) <$> entries_get m k
  else entries_get m k.
Proof.
  induction m as [|[k0 old] rest IH]; cbn.
  - destruct (decide (key = k)); reflexivity.
  - destruct (decide (k0 = key)) as [->|Hne]; cbn.
    + destruct (decide (key = k)); reflexivity.
    + rewrite IH. destruct (decide (k0 = k)) as [->|]; [|reflexivity].
      destruct (decide (key = k)); [congruence|reflexivity].
Qed.

Lemma entries_push_keys m key value : (entries_push m key value).*1 = m.*1.
Proof.
  induction m as [|[k0 old] rest IH]; [reflexivity|]. cbn.
  destruct (decide (k0 = key)); cbn; [reflexivity|]. rewrite IH. reflexivity.
Qed.

End EntriesOfArraysFacts.

Section FirstOccurrences.

Context {K : Type} `{EqDecision K}.

Lemma first_occurrences_snoc (l : list K) (y : K) :
  first_occurrences (l ++ [y]) =
  (first_occurrences l ++ if decide (y ∈ l) then nil else [y])%list.
Proof.
  induction l as [|x l IH]; [reflexivity|].
  change ((x :: l) ++ [y])%list with (x :: (l ++ [y]))%list.
  cbn [first_occurrences]. rewrite IH, filter_app. cbn [app]. f_equal. f_equal.
  destruct (decide (y ∈ x :: l)) as [Hin|Hout];
    destruct (decide (y ∈ l)) as [Hin'|Hout']; try reflexivity.
  - apply elem_of_cons in Hin as [->|Hin]; [|contradiction].
    rewrite filter_cons, decide_False by (intros Hx; apply Hx; reflexivity).
    reflexivity.
  - exfalso. apply Hout, elem_of_cons. right. exact Hin'.
  - rewrite filter_cons, decide_True; [reflexivity|].
    intros ->. apply Hout, elem_of_cons. left. reflexivity.
Qed.

Lemma first_occurrences_elem_of (l : list K) (x : K) :
  x ∈ first_occurrences l <-> x ∈ l.
Proof.
  induction l as [|y l IH]; [reflexivity|]. cbn [first_occurrences].
  rewrite !elem_of_cons, list_elem_of_filter, IH.
  destruct (decide (x = y)); intuition.
Qed.

Lemma first_occurrences_NoDup (l : list K) : NoDup (first_occurrences l).
Proof.
  induction l as [|y l IH]; [constructor|]. cbn [first_occurrences].
  constructor.
  - rewrite list_elem_of_filter. intros [Hne _]. apply Hne. reflexivity.
  - apply NoDup_filter, IH.
Qed.

End FirstOccurrences.

(** ** [group] *)

Section GroupFacts.

Context {A K V : Type} `{EqDecision K}.
Variables (keySelector : A -> K) (valueSelector : A -> V).

Lemma group_snoc (array : list A) (item : A) :
  group (array ++ [item]) keySelector valueSelector =
  group_step keySelector valueSelector (group array keySelector valueSelector) item.
Proof. unfold group. rewrite fold_left_app. reflexivity. Qed.

Lemma group_get (array : list A) (key : K) :
  entries_get (group array keySelector valueSelector) key =
  match filter (fun item => keySelector item = key) array with
  | nil => None
  | hits => Some (valueSelector <$> hits)
  end.
Proof.
  induction array as [|item array IH] using rev_ind; [reflexivity|].
  rewrite group_snoc, filter_app. unfold group_step, entries_has. cbv zeta.
  destruct (entries_get (group array keySelector valueSelector) (keySelector item))
    as [old|] eqn:Hold.
  - rewrite entries_get_push, filter_cons, filter_nil.
    destruct (decide (keySelector item = key)) as [<-|Hne].
    + rewrite Hold. rewrite IH in Hold.
      destruct (filter _ array) as [|x hits]; [discriminate|].
      injection Hold as <-. cbn. rewrite fmap_app. reflexivity.
    + rewrite app_nil_r. exact IH.
  - rewrite entries_get_set, filter_cons, filter_nil.
    destruct (decide (keySelector item = key)) as [<-|Hne].
    + rewrite IH in Hold.
      destruct (filter _ array) as [|x hits]; [reflexivity|discriminate].
    + rewrite app_nil_r. exact IH.
Qed.

Lemma group_keys (array : list A) :
  (group array keySelector valueSelector).*1 = first_occurrences (keySelector <$> array).
Proof.
  induction array as [|item array IH] using rev_ind; [reflexivity|].
  rewrite group_snoc, fmap_app.
  change (keySelector <$> [item]) with [keySelector item].
  rewrite first_occurrences_snoc, <- IH.
  unfold group_step, entries_has. cbv zeta.
  destruct (entries_get (group array keySelector valueSelector) (keySelector item))
    as [old|] eqn:Hold.
  - rewrite entries_push_keys.
    rewrite decide_True; [rewrite app_nil_r; reflexivity|].
    rewrite <- first_occurrences_elem_of, <- IH.
    destruct (decide (keySelector item ∈ (group array keySelector valueSelector).*1))
      as [Hin|Hout]; [exact Hin|].
    apply entries_get_None in Hout. congruence.
  - rewrite (entries_set_new_keys _ _ _ Hold).
    rewrite decide_False; [reflexivity|].
    rewrite <- first_occurrences_elem_of, <- IH.
    apply entries_get_None, Hold.
Qed.

End GroupFacts.

(** ** The order of strings *)

Section StringOrder.

Lemma ascii_compare_spec (a b : ascii) :
  CompareSpec (a = b) (N_of_ascii a < N_of_ascii b)%N
    (N_of_ascii b < N_of_ascii a)%N (Ascii.compare a b).
Proof.
  unfold Ascii.compare.
  destruct (N.compare_spec (N_of_ascii a) (N_of_ascii b)) as [Heq|Hlt|Hgt];
    constructor; try assumption.
  rewrite <- (ascii_N_embedding a), <- (ascii_N_embedding b), Heq. reflexivity.
Qed.

Lemma string_compare_refl (s : string) : String.compare s s = Eq.
Proof.
  induction s as [|a s IH]; [reflexivity|]. cbn.
  destruct (ascii_compare_spec a a); [exact IH|lia|lia].
Qed.

Lemma string_le_trans (a b c : string) :
  string_le a b -> string_le b c -> string_le a c.
Proof.
  unfold string_le, String.leb. revert b c.
  induction a as [|x a IH]; intros [|y b] [|z c]; cbn;
    try (intros; reflexivity); try (intros; discriminate).
  destruct (ascii_compare_spec x y) as [Hxy|Hxy|Hxy];
    destruct (ascii_compare_spec y z) as [Hyz|Hyz|Hyz];
    destruct (ascii_compare_spec x z) as [Hxz|Hxz|Hxz];
    try subst; try (intros; reflexivity); try (intros; discriminate);
    try lia; try apply IH.
Qed.

#[global] Instance string_le_transitive : Transitive string_le.
Proof. intros a b c. apply string_le_trans. Qed.

#[global] Instance string_le_total : Total string_le.
Proof. intros a b. apply String.leb_total. Qed.

#[global] Instance string_le_antisymm : AntiSymm (=) string_le.
Proof. intros a b. apply String.leb_antisym. Qed.

Lemma string_le_refl (a : string) : string_le a a.
Proof. unfold string_le, String.leb. rewrite string_compare_refl. reflexivity. Qed.

Lemma sort_sorted (arr : list string) : StronglySorted string_le (sort arr).
Proof. apply StronglySorted_merge_sort; apply _. Qed.

Lemma sort_permutation (arr : list string) : sort arr ≡ₚ arr.
Proof. apply merge_sort_Permutation. Qed.

(** The order in which the elements arrive does not matter to [sort]. *)
Lemma sort_order_irrelevant (l1 l2 : list string) : l1 ≡ₚ l2 -> sort l1 = sort l2.
Proof.
  intros Hp. apply (StronglySorted_unique string_le); try apply sort_sorted.
  rewrite !sort_permutation. exact Hp.
Qed.

End StringOrder.

Section UngroupFacts.

Context {A K V : Type} `{EqDecision K}.

Implicit Types (m : list (K * list V)) (key k : K) (arr : list V) (value : V).

Lemma ungroup_push m key value :
  key ∈ m.*1 -> ungroup (entries_push m key value) ≡ₚ (ungroup m ++ [(key, value)])%list.
Proof.
  induction m as [|[k0 old] rest IH]; cbn.
  - intros Hin. apply elem_of_nil in Hin. contradiction.
  - intros Hin. destruct (decide (k0 = key)) as [->|Hne]; unfold ungroup; cbn.
    + rewrite fmap_app. cbn. rewrite <- !app_assoc.
      apply Permutation_app_head, Permutation_app_comm.
    + apply elem_of_cons in Hin as [Heq|Hin]; [congruence|].
      rewrite <- app_assoc. apply Permutation_app_head. apply IH, Hin.
Qed.

Lemma ungroup_set_new m key value :
  entries_get m key = None ->
  ungroup (entries_set m key [value]) = (ungroup m ++ [(key, value)])%list.
Proof.
  induction m as [|[k0 old] rest IH]; [reflexivity|]. cbn.
  destruct (decide (k0 = key)); [discriminate|]. intros Hr.
  unfold ungroup in *. cbn. rewrite (IH Hr), app_assoc. reflexivity.
Qed.

Lemma group_step_ungroup (ks : A -> K) (vs : A -> V) m (item : A) :
  ungroup (group_step ks vs m item) ≡ₚ (ungroup m ++ [(ks item, vs item)])%list.
Proof.
  unfold group_step, entries_has. cbv zeta.
  destruct (entries_get m (ks item)) as [old|] eqn:Hold.
  - apply ungroup_push.
    destruct (decide (ks item ∈ m.*1)) as [Hin|Hout]; [exact Hin|].
    apply entries_get_None in Hout. congruence.
  - rewrite (ungroup_set_new _ _ _ Hold). reflexivity.
Qed.

Lemma fold_group_step_ungroup (ks : A -> K) (vs : A -> V) (array : list A) :
  forall m,
    ungroup (fold_left (group_step ks vs) array m)
    ≡ₚ (ungroup m ++ ((fun x => (ks x, vs x)) <$> array))%list.
Proof.
  induction array as [|item array IH]; intros m; cbn [fold_left].
  - rewrite fmap_nil, app_nil_r. reflexivity.
  - rewrite IH, group_step_ungroup, fmap_cons, <- app_assoc. reflexivity.
Qed.

End UngroupFacts.

(** X6: in the [Map] that [group] returns, a key is present exactly when
    some element has it, and it holds the selected values of the elements
    with that key, in their order in the array. *)
Theorem group_lookup {A K V : Type} `{EqDecision K}
    (array : list A) (keySelector : A -> K) (valueSelector : A -> V) (key : K) :
  entries_get (group array keySelector valueSelector) key =
  match filter (fun item => keySelector item = key) array with
  | nil => None
  | hits => Some (valueSelector <$> hits)
  end.
Proof. apply group_get. Qed.

(** X7: the keys of the [Map] that [group] returns are the keys of the
    elements, each once, in the order in which they first occur. *)
Theorem group_key_order {A K V : Type} `{EqDecision K}
    (array : list A) (keySelector : A -> K) (valueSelector : A -> V) :
  (group array keySelector valueSelector).*1
  = first_occurrences (keySelector <$> array) /\
  NoDup (group array keySelector valueSelector).*1 /\
  (forall key, key ∈ (group array keySelector valueSelector).*1
               <-> exists item, item ∈ array /\ keySelector item = key).
Proof.
  rewrite group_keys. split; [reflexivity|]. split; [apply first_occurrences_NoDup|].
  intros key. rewrite first_occurrences_elem_of, list_elem_of_fmap.
  split; intros (item & H1 & H2); exists item; [split; [exact H2|symmetry; exact H1]
                                              |split; [symmetry; exact H2|exact H1]].
Qed.

(** X8: [group] loses and invents nothing: the (key, value) pairs held in
    the [Map] are, up to order, the pairs selected from the elements. *)
Theorem group_keeps_every_pair {A K V : Type} `{EqDecision K}
    (array : list A) (keySelector : A -> K) (valueSelector : A -> V) :
  ungroup (group array keySelector valueSelector)
  ≡ₚ (fun item => (keySelector item, valueSelector item)) <$> array.
Proof. unfold group. rewrite fold_group_step_ungroup. reflexivity. Qed.

(** ** [sortCitiesArray] *)

Section SortCitiesFacts.

Variable inherited : string -> bool.

Implicit Types (d : list (string * list string)) (arr : list place).

Lemma collect_step_group d (item : place) :
  inherited (country item) = false ->
  collect_step inherited d item = Normal (group_step country city d item).
Proof.
  intros Hn. unfold collect_step, group_step, entries_has. cbv zeta.
  destruct (entries_get d (country item)); [reflexivity|]. rewrite Hn. reflexivity.
Qed.

Lemma collect_group arr :
  forall d,
    Forall (fun item => inherited (country item) = false) arr ->
    collect inherited d arr = Normal (fold_left (group_step country city) arr d).
Proof.
  induction arr as [|item arr IH]; intros d Hn; [reflexivity|].
  apply Forall_cons in Hn as [Hitem Hn]. cbn [collect fold_left].
  rewrite (collect_step_group d item Hitem). apply IH, Hn.
Qed.

Lemma collect_throws arr :
  forall d,
    Forall (fun k => inherited k = false) d.*1 ->
    Exists (fun item => inherited (country item) = true) arr ->
    collect inherited d arr = Throw TypeError.
Proof.
  induction arr as [|item arr IH]; intros d Hd Hex.
  - apply Exists_nil in Hex. contradiction.
  - cbn [collect]. unfold collect_step.
    destruct (entries_get d (country item)) as [old|] eqn:Hold.
    + assert (Hin : country item ∈ d.*1).
      { destruct (decide (country item ∈ d.*1)) as [Hin|Hout]; [exact Hin|].
        apply entries_get_None in Hout. congruence. }
      assert (Hitem : inherited (country item) = false).
      { rewrite Forall_forall in Hd. apply Hd, Hin. }
      apply Exists_cons in Hex as [Hex|Hex]; [congruence|].
      apply IH; [|exact Hex]. rewrite entries_push_keys. exact Hd.
    + destruct (inherited (country item)) eqn:Hitem; [reflexivity|].
      apply Exists_cons in Hex as [Hex|Hex]; [congruence|].
      apply IH; [|exact Hex]. rewrite (entries_set_new_keys _ _ _ Hold).
      apply Forall_app. split; [exact Hd|]. constructor; [exact Hitem|constructor].
Qed.

Lemma emit_blocks d (countries : list string) :
  Forall (fun c => c ∈ d.*1) countries ->
  emit d countries = Normal (flat_map (block d) countries).
Proof.
  induction countries as [|c rest IH]; intros Hin; [reflexivity|].
  apply Forall_cons in Hin as [Hc Hin]. cbn [emit flat_map]. unfold block at 1.
  destruct (entries_get d c) as [cities|] eqn:Hget.
  - rewrite (IH Hin). reflexivity.
  - apply entries_get_None in Hget. contradiction.
Qed.

Lemma place_le_block (c a b : string) :
  string_le a b -> place_le (Place c a) (Place c b).
Proof. intros Hab. split; [apply string_le_refl|intros _; exact Hab]. Qed.

Lemma blocks_sorted d (countries : list string) :
  StronglySorted string_le countries -> NoDup countries ->
  StronglySorted place_le (flat_map (block d) countries).
Proof.
  induction countries as [|c rest IH]; intros Hs Hnd; [constructor|].
  apply StronglySorted_cons in Hs as [Hc Hs].
  apply NoDup_cons in Hnd as [Hnc Hnd]. cbn [flat_map].
  apply StronglySorted_app_2.
  - intros x1 x2 H1 H2. unfold block in H1.
    apply list_elem_of_fmap in H1 as (t1 & -> & _).
    apply list_elem_of_In, in_flat_map in H2 as (c2 & Hc2 & H2).
    apply list_elem_of_In in H2, Hc2. unfold block in H2.
    apply list_elem_of_fmap in H2 as (t2 & -> & _).
    rewrite Forall_forall in Hc. split; cbn.
    + apply Hc, Hc2.
    + intros ->. contradiction.
  - unfold block. apply StronglySorted_fmap with (R1 := string_le).
    + intros x y. apply place_le_block.
    + apply sort_sorted.
  - apply IH; assumption.
Qed.

Lemma blocks_ungroup d (l : list (string * list string)) :
  NoDup d.*1 -> (forall e, e ∈ l -> e ∈ d) ->
  flat_map (block d) l.*1 ≡ₚ (fun p => Place (fst p) (snd p)) <$> ungroup l.
Proof.
  intros Hnd. induction l as [|[c cities] l IH]; intros Hsub; [reflexivity|].
  cbn [fmap list_fmap flat_map fst]. unfold ungroup. cbn [flat_map fst snd].
  rewrite fmap_app. apply Permutation_app.
  - unfold block. rewrite (entries_get_elem_of d c cities Hnd).
    + cbn [default from_option]. rewrite sort_permutation.
      rewrite <- list_fmap_compose. reflexivity.
    + apply Hsub, elem_of_cons. left. reflexivity.
  - apply IH. intros e He. apply Hsub, elem_of_cons. right. exact He.
Qed.

Lemma sortCitiesArray_spec arr :
  Forall (fun item => inherited (country item) = false) arr ->
  exists out,
    sortCitiesArray inherited arr = Normal out /\
    StronglySorted place_le out /\
    out ≡ₚ arr.
Proof.
  intros Hn. unfold sortCitiesArray. rewrite (collect_group arr nil Hn).
  fold (group arr country city). cbv zeta. unfold Object_keys.
  set (d := group arr country city).
  assert (Hnd : NoDup d.*1).
  { subst d. rewrite group_keys. apply first_occurrences_NoDup. }
  rewrite emit_blocks.
  2: { apply Forall_forall. intros c Hc. rewrite <- (sort_permutation d.*1). exact Hc. }
  eexists. split; [reflexivity|]. split.
  - apply blocks_sorted; [apply sort_sorted|].
    rewrite sort_permutation. exact Hnd.
  - rewrite (Permutation_flat_map (block d) (sort_permutation d.*1)).
    rewrite (blocks_ungroup d d Hnd) by (intros e He; exact He).
    subst d. unfold group. rewrite fold_group_step_ungroup. cbn [ungroup flat_map app].
    rewrite <- list_fmap_compose.
    clear. induction arr as [|[c t] arr IH]; [reflexivity|].
    rewrite fmap_cons. cbn [compose fst snd country city]. rewrite IH. reflexivity.
Qed.

End SortCitiesFacts.

#[global] Instance place_le_transitive : Transitive place_le.
Proof.
  intros a b c [Hab Hab'] [Hbc Hbc']. split.
  - etransitivity; eassumption.
  - intros Hac.
    assert (Heq : country a = country b).
    { apply (anti_symm string_le); [exact Hab|]. rewrite Hac. exact Hbc. }
    etransitivity; [apply Hab', Heq|apply Hbc'; congruence].
Qed.

#[global] Instance place_le_antisymm : AntiSymm (=) place_le.
Proof.
  intros [ca ta] [cb tb] [Hab Hab'] [Hba Hba']. cbn in *.
  assert (Hc : ca = cb) by (apply (anti_symm string_le); assumption).
  subst cb. f_equal. apply (anti_symm string_le); auto.
Qed.

(** X9: given an array none of whose countries is a name that
    [Object.prototype] defines, [sortCitiesArray] returns an array that is
    in ascending order by country, then by city, and that holds the same
    (country, city) records as the input, each as many times. *)
Theorem sortCitiesArray_sorts (inherited : string -> bool) (arr : list place) :
  Forall (fun item => inherited (country item) = false) arr ->
  exists out : list place,
    sortCitiesArray inherited arr = Normal out /\
    Sorted place_le out /\
    out ≡ₚ arr.
Proof.
  intros Hn. destruct (sortCitiesArray_spec inherited arr Hn) as (out & Hrun & Hs & Hp).
  exists out. split; [exact Hrun|]. split; [|exact Hp].
  apply StronglySorted_Sorted, Hs.
Qed.

Lemma sortCitiesArray_sorts_witness :
  exists out : list place,
    sortCitiesArray on_Object_prototype
      [Place "Russia" "Moscow"; Place "Belarus" "Minsk"; Place "Poland" "Warsaw";
       Place "Russia" "Saint Petersburg"; Place "Poland" "Krakow";
       Place "Belarus" "Brest"]%list = Normal out /\
    Sorted place_le out /\
    out ≡ₚ [Place "Russia" "Moscow"; Place "Belarus" "Minsk"; Place "Poland" "Warsaw";
            Place "Russia" "Saint Petersburg"; Place "Poland" "Krakow";
            Place "Belarus" "Brest"]%list.
Proof.
  apply (sortCitiesArray_sorts on_Object_prototype). repeat constructor.
Defined.

Example sortCitiesArray_doc :
  sortCitiesArray on_Object_prototype
    [Place "Russia" "Moscow"; Place "Belarus" "Minsk"; Place "Poland" "Warsaw";
     Place "Russia" "Saint Petersburg"; Place "Poland" "Krakow";
     Place "Belarus" "Brest"]%list
  = Normal [Place "Belarus" "Brest"; Place "Belarus" "Minsk";
            Place "Poland" "Krakow"; Place "Poland" "Warsaw";
            Place "Russia" "Moscow"; Place "Russia" "Saint Petersburg"]%list.
Proof. vm_compute. reflexivity. Qed.

(** X10: when some element's country is a name that [Object.prototype]
    defines, such as [constructor] or [toString], [sortCitiesArray] throws
    a [TypeError]: the lookup finds the inherited member and calls a
    [push] it does not have. *)
Theorem sortCitiesArray_inherited_name_throws (inherited : string -> bool)
    (arr : list place) :
  Exists (fun item => inherited (country item) = true) arr ->
  sortCitiesArray inherited arr = Throw TypeError.
Proof.
  intros Hex. unfold sortCitiesArray.
  rewrite (collect_throws inherited arr nil); [reflexivity|constructor|exact Hex].
Qed.

Lemma sortCitiesArray_inherited_name_throws_witness :
  sortCitiesArray on_Object_prototype
    [Place "Poland" "Lodz"; Place "constructor" "Oz"]%list = Throw TypeError.
Proof.
  apply (sortCitiesArray_inherited_name_throws on_Object_prototype).
  apply Exists_cons_tl, Exists_cons_hd. reflexivity.
Defined.

(** X11: an array that is already in ascending order by country, then by
    city, comes back unchanged; so sorting the result of
    [sortCitiesArray] again changes nothing. *)
Theorem sortCitiesArray_fixes_sorted (inherited : string -> bool) (arr : list place) :
  Forall (fun item => inherited (country item) = false) arr ->
  Sorted place_le arr ->
  sortCitiesArray inherited arr = Normal arr.
Proof.
  intros Hn Hsorted.
  destruct (sortCitiesArray_spec inherited arr Hn) as (out & Hrun & Hs & Hp).
  rewrite Hrun. f_equal.
  apply (StronglySorted_unique place_le); [exact Hs| |exact Hp].
  apply Sorted_StronglySorted; [apply _|exact Hsorted].
Qed.

Lemma sortCitiesArray_fixes_sorted_witness :
  sortCitiesArray on_Object_prototype
    [Place "Belarus" "Brest"; Place "Belarus" "Minsk"; Place "Poland" "Krakow"]%list
  = Normal [Place "Belarus" "Brest"; Place "Belarus" "Minsk";
            Place "Poland" "Krakow"]%list.
Proof.
  apply (sortCitiesArray_fixes_sorted on_Object_prototype).
  - repeat constructor.
  - repeat constructor; cbn; try reflexivity; intros; try reflexivity; discriminate.
Defined.

(** ** [makeWord] *)

Example makeWord_doc_1 :
  makeWord [("a", [0; 1]); ("b", [2; 3]); ("c", [4; 5])]%nat%list = "aabbcc".
Proof. reflexivity. Qed.

Example makeWord_doc_2 :
  makeWord [("H", [0]); ("e", [1]); ("l", [2; 3; 8]); ("o", [4; 6]); ("W", [5]);
            ("r", [7]); ("d", [9])]%nat%list = "HelloWorld".
Proof. reflexivity. Qed.

Section MakeWordFacts.

Implicit Types (arr word : list string) (key : string) (p q : nat).

Lemma push_blanks_replicate (fuel p : nat) arr :
  (p - length arr <= fuel)%nat ->
  push_blanks fuel p arr = (arr ++ replicate (p - length arr) EmptyString)%list.
Proof.
  revert arr. induction fuel as [|fuel IH]; intros arr Hfuel; cbn [push_blanks].
  - replace (p - length arr)%nat with 0%nat by lia. cbn. rewrite app_nil_r. reflexivity.
  - destruct (Nat.ltb_spec (length arr) p) as [Hlt|Hge].
    + rewrite IH by (rewrite length_app; cbn; lia).
      rewrite length_app. cbn [length].
      replace (p - length arr)%nat with (S (p - (length arr + 1)))%nat by lia.
      cbn [replicate]. rewrite <- app_assoc. reflexivity.
    + replace (p - length arr)%nat with 0%nat by lia. cbn. rewrite app_nil_r. reflexivity.
Qed.

(** What one placement leaves at every index. *)
Lemma place_letter_lookup key arr p q :
  place_letter key arr p !! q =
  if decide (q = p) then Some key
  else if decide (q < length arr)%nat then arr !! q
  else if decide (q < p)%nat then Some EmptyString
  else None.
Proof.
  unfold place_letter, splice1. rewrite push_blanks_replicate by lia.
  set (padded := (arr ++ replicate (p - length arr) EmptyString)%list).
  assert (Hlen : length padded = Nat.max (length arr) p).
  { subst padded. rewrite length_app, length_replicate. lia. }
  assert (Hpad : padded !! q =
                 if decide (q < length arr)%nat then arr !! q
                 else if decide (q < p)%nat then Some EmptyString else None).
  { subst padded. destruct (decide (q < length arr)%nat) as [Hq|Hq].
    - apply lookup_app_l, Hq.
    - rewrite lookup_app_r by lia. destruct (decide (q < p)%nat) as [Hqp|Hqp].
      + apply lookup_replicate_2. lia.
      + apply lookup_replicate_None. lia. }
  assert (Htake : length (take p padded) = p) by (rewrite length_take; lia).
  destruct (decide (q = p)) as [->|Hne].
  - rewrite lookup_app_r by lia. rewrite Htake, Nat.sub_diag. reflexivity.
  - destruct (decide (q < p)%nat) as [Hqp|Hqp].
    + rewrite lookup_app_l by lia. rewrite lookup_take_lt by exact Hqp.
      rewrite Hpad. destruct (decide (q < length arr)%nat); reflexivity.
    + rewrite lookup_app_r by lia. rewrite Htake.
      rewrite lookup_cons_ne_0 by lia.
      rewrite lookup_drop. replace (S p + Nat.pred (q - p))%nat with q by lia.
      rewrite Hpad. destruct (decide (q < length arr)%nat); reflexivity.
Qed.

Lemma place_letter_keeps word key arr p :
  word !! p = Some key -> (length arr <= length word)%nat ->
  (length (place_letter key arr p) <= length word)%nat /\
  agrees (place_letter key arr p) word p /\
  (forall q, agrees arr word q -> agrees (place_letter key arr p) word q).
Proof.
  intros Hp Hlen.
  assert (Hpw : (p < length word)%nat) by (apply lookup_lt_is_Some; eauto).
  split; [|split].
  - destruct (Nat.le_gt_cases (length (place_letter key arr p)) (length word))
      as [Hle|Hgt]; [exact Hle|exfalso].
    assert (Hsome : is_Some (place_letter key arr p !! length word))
      by (apply lookup_lt_is_Some; lia).
    rewrite place_letter_lookup in Hsome.
    repeat (destruct (decide _) in Hsome; try lia).
    destruct Hsome as [? ?]; discriminate.
  - unfold agrees. rewrite place_letter_lookup, decide_True by reflexivity.
    symmetry. exact Hp.
  - unfold agrees. intros q Hq. rewrite place_letter_lookup.
    destruct (decide (q = p)) as [->|Hne]; [symmetry; exact Hp|].
    destruct (decide (q < length arr)%nat) as [Hqa|Hqa]; [exact Hq|].
    rewrite lookup_ge_None_2 in Hq by lia. symmetry in Hq.
    apply lookup_ge_None_1 in Hq.
    rewrite decide_False by lia. symmetry. apply lookup_ge_None_2. exact Hq.
Qed.

Lemma place_letters_keep word key (positions : list nat) :
  forall arr,
    Forall (fun p => word !! p = Some key) positions ->
    (length arr <= length word)%nat ->
    (length (fold_left (place_letter key) positions arr) <= length word)%nat /\
    (forall p, p ∈ positions ->
               agrees (fold_left (place_letter key) positions arr) word p) /\
    (forall q, agrees arr word q ->
               agrees (fold_left (place_letter key) positions arr) word q).
Proof.
  induction positions as [|p positions IH]; intros arr Hps Hlen; cbn [fold_left].
  - split; [exact Hlen|]. split; [|auto].
    intros p Hp. apply elem_of_nil in Hp. contradiction.
  - apply Forall_cons in Hps as [Hp Hps].
    destruct (place_letter_keeps word key arr p Hp Hlen) as (L1 & A1 & K1).
    destruct (IH (place_letter key arr p) Hps L1) as (L2 & A2 & K2).
    split; [exact L2|]. split.
    + intros q Hq. apply elem_of_cons in Hq as [->|Hq]; [apply K2, A1|apply A2, Hq].
    + intros q Hq. apply K2, K1, Hq.
Qed.

Lemma makeWord_array_keeps word (lettersObject : list (string * list nat)) :
  forall arr,
    Forall (fun entry => Forall (fun p => word !! p = Some (fst entry)) (snd entry))
      lettersObject ->
    (length arr <= length word)%nat ->
    let final :=
      fold_left (fun arr entry => fold_left (place_letter (fst entry)) (snd entry) arr)
        lettersObject arr in
    (length final <= length word)%nat /\
    (forall entry p, entry ∈ lettersObject -> p ∈ snd entry -> agrees final word p) /\
    (forall q, agrees arr word q -> agrees final word q).
Proof.
  induction lettersObject as [|[key positions] rest IH]; intros arr Hall Hlen;
    cbn [fold_left fst snd].
  - split; [exact Hlen|]. split; [|auto].
    intros entry p He. apply elem_of_nil in He. contradiction.
  - apply Forall_cons in Hall as [Hkey Hall]. cbn [fst snd] in Hkey.
    destruct (place_letters_keep word key positions arr Hkey Hlen) as (L1 & A1 & K1).
    destruct (IH _ Hall L1) as (L2 & A2 & K2).
    split; [exact L2|]. split.
    + intros entry p He Hp. apply elem_of_cons in He as [->|He].
      * apply K2, A1, Hp.
      * apply (A2 entry p He Hp).
    + intros q Hq. apply K2, K1, Hq.
Qed.

End MakeWordFacts.

(** X12: when the object lists, under each letter, positions at which the
    word has that letter, and every position of the word is listed,
    [makeWord] rebuilds the word, in whatever order the letters and the
    positions come. *)
Theorem makeWord_rebuilds_word (lettersObject : list (string * list nat))
    (word : list string) :
  Forall (fun entry => Forall (fun p => word !! p = Some (fst entry)) (snd entry))
    lettersObject ->
  Forall (fun p => Exists (fun entry => p ∈ snd entry) lettersObject)
    (seq 0 (length word)) ->
  makeWord_array lettersObject = word /\
  makeWord lettersObject = String.concat EmptyString word.
Proof.
  intros Hall Hcover.
  assert (Harr : makeWord_array lettersObject = word).
  { destruct (makeWord_array_keeps word lettersObject nil Hall) as (L & Ag & _);
      [cbn; lia|]. cbv zeta in L, Ag. fold (makeWord_array lettersObject) in L, Ag.
    apply list_eq. intros q.
    destruct (decide (q < length word)%nat) as [Hq|Hq].
    - rewrite Forall_forall in Hcover.
      assert (Hin : q ∈ seq 0 (length word)) by (apply elem_of_seq; lia).
      apply Hcover, Exists_exists in Hin as (entry & He & Hp).
      apply (Ag entry q He Hp).
    - rewrite !lookup_ge_None_2 by lia. reflexivity. }
  split; [exact Harr|]. unfold makeWord. rewrite Harr. reflexivity.
Qed.

Lemma makeWord_rebuilds_word_witness :
  makeWord [("l", [2; 3]); ("o", [4]); ("h", [0]); ("e", [1])]%nat%list
  = String.concat EmptyString ["h"; "e"; "l"; "l"; "o"]%list.
Proof.
  apply (makeWord_rebuilds_word
           [("l", [2; 3]); ("o", [4]); ("h", [0]); ("e", [1])]%nat%list
           ["h"; "e"; "l"; "l"; "o"]%list);
    apply (bool_decide_unpack _); vm_compute; exact I.
Defined.

(** * More on the selector builder *)

Section MoreIncludes.

Lemma prefix_app (sub s t : string) :
  String.prefix sub s = true -> String.prefix sub (s ++ t) = true.
Proof.
  revert s. induction sub as [|a sub IH]; intros s Hp; [apply prefix_empty|].
  destruct s as [|b s]; [discriminate|]. cbn in *.
  destruct (ascii_dec a b); [apply IH; exact Hp|discriminate].
Qed.

Lemma includes_app_l (s t sub : string) :
  includes s sub = true -> includes (s ++ t) sub = true.
Proof.
  induction s as [|a s IH]; intros Hs.
  - rewrite includes_unfold, orb_false_r in Hs.
    destruct sub; [|discriminate]. rewrite includes_unfold, prefix_empty. reflexivity.
  - rewrite includes_unfold in Hs. apply orb_true_iff in Hs.
    change (String a s ++ t) with (String a (s ++ t)).
    rewrite includes_unfold. apply orb_true_iff. destruct Hs as [Hs|Hs].
    + left. apply (prefix_app sub (String a s) t Hs).
    + right. apply IH, Hs.
Qed.

Lemma includes_empty_sub (s : string) : includes s EmptyString = true.
Proof. rewrite includes_unfold, prefix_empty. reflexivity. Qed.

(** A needle of one character lies in a concatenation exactly when it lies
    in one of the two parts. *)
Lemma includes_char_app (s t : string) (a : ascii) :
  includes (s ++ t) (String a EmptyString)
  = includes s (String a EmptyString) || includes t (String a EmptyString).
Proof.
  induction s as [|b s IH]; [reflexivity|].
  change (String b s ++ t) with (String b (s ++ t)).
  rewrite (includes_unfold (String b (s ++ t))), (includes_unfold (String b s)), IH.
  cbn [String.prefix]. destruct (ascii_dec a b); rewrite ?prefix_empty;
    [reflexivity|]. reflexivity.
Qed.

End MoreIncludes.

(** Where a chain started on a state with text [cur] can end: with the
    text followed by the fragments, or with one of the two errors. *)
Lemma chain_outcome (cs : list call) :
  forall (h : heap) (this : loc) (cur : string),
    get selector h this = Str cur ->
    (exists built h', chain cs this h = (Normal built, h') /\
                      get selector h' built = Str (cur ++ render cs)) \/
    (exists h', chain cs this h = (Throw (Error order_message), h')) \/
    (exists h', chain cs this h = (Throw (Error duplicate_message), h')).
Proof.
  induction cs as [|[c v] cs IH]; intros h this cur Hsel.
  - left. exists this, h. cbn. rewrite append_empty_r. split; [reflexivity|exact Hsel].
  - cbn [chain]. unfold bind. rewrite (append_spec c this v h cur Hsel).
    destruct (out_of_order _ _); [right; left; eexists; reflexivity|].
    destruct (clashes c cur v); [right; right; eexists; reflexivity|].
    set (o := Object _ _).
    destruct (IH (h ++ [o])%list (length h) (cur ++ fragment c v))
      as [(built & h' & Hrun & Hget)|[(h' & Hrun)|(h' & Hrun)]].
    + apply get_fresh. reflexivity.
    + left. exists built, h'. split; [exact Hrun|].
      rewrite Hget. cbn [render]. rewrite append_assoc. reflexivity.
    + right; left. exists h'. exact Hrun.
    + right; right. exists h'. exact Hrun.
Qed.

(** X13: whatever the calls and their arguments, a chained expression
    started on the facade has one of three outcomes: it returns the
    fragments concatenated in call order, or it throws the order error, or
    it throws the duplicate error. It never returns any other text and
    never throws anything else. *)
Theorem build_returns_rendering_or_throws (h : heap) (cs : list call) :
  pristine h ->
  build_in h cs = Normal (Str (render cs)) \/
  build_in h cs = Throw (Error order_message) \/
  build_in h cs = Throw (Error duplicate_message).
Proof.
  intros Hp. apply pristine_get in Hp as [Hsel _].
  unfold build_in, bind, stringify, read.
  destruct (chain_outcome cs h facade EmptyString Hsel)
    as [(built & h' & Hrun & Hget)|[(h' & Hrun)|(h' & Hrun)]]; rewrite Hrun.
  - left. cbn [fst]. rewrite Hget. reflexivity.
  - right; left. reflexivity.
  - right; right. reflexivity.
Qed.

Lemma build_returns_rendering_or_throws_witness :
  build_in heap0 [(Class, "a"); (Element, "b")]%list = Normal (Str ".ab") \/
  build_in heap0 [(Class, "a"); (Element, "b")]%list = Throw (Error order_message) \/
  build_in heap0 [(Class, "a"); (Element, "b")]%list = Throw (Error duplicate_message).
Proof.
  apply (build_returns_rendering_or_throws heap0 [(Class, "a"); (Element, "b")]%list).
  reflexivity.
Defined.

(** The bound the text puts on later id or pseudo-element calls. *)
Lemma chain_returns_ordered (cs : list call) :
  forall (h : heap) (this : loc) (cur : string) (c0 : category) (built : loc) (h' : heap),
    get selector h this = Str cur ->
    get lastPart h this = Str (part_name c0) ->
    chain cs this h = (Normal built, h') ->
    nondecreasing (rank c0 :: map (fun x => rank (fst x)) cs) = true /\
    (occurrences Id cs <= if includes cur "#" then 0 else 1)%nat /\
    (occurrences PseudoElement cs <= if includes cur "::" then 0 else 1)%nat.
Proof.
  induction cs as [|[c v] cs IH]; intros h this cur c0 built h' Hsel Hlast Hrun.
  - cbn. split; [reflexivity|]. split; destruct (includes cur _); lia.
  - cbn [chain] in Hrun. unfold bind in Hrun.
    rewrite (append_spec c this v h cur Hsel), Hlast, out_of_order_rank in Hrun.
    destruct (Nat.ltb_spec (rank c) (rank c0)) as [Hlt|Hle]; [discriminate|].
    destruct (clashes c cur v) eqn:Hclash; [discriminate|].
    apply IH with (cur := cur ++ fragment c v) (c0 := c) in Hrun
      as (Hord & Hid & Hpe); try (apply get_fresh; reflexivity).
    split; [|split].
    + cbn [map fst nondecreasing]. cbn [map] in Hord.
      apply andb_true_iff. split; [apply Nat.leb_le, Hle|exact Hord].
    + cbn [occurrences]. unfold category_eqb.
      destruct c; cbn [rank Nat.eqb clashes fragment] in *;
        try (destruct (includes cur "#") eqn:Hcur;
             [rewrite (includes_app_l cur _ "#" Hcur) in Hid; lia
             |destruct (includes (cur ++ _) "#"); lia]).
      rewrite Hclash.
      rewrite (includes_app_r cur _ "#" (includes_here "#" v)) in Hid. lia.
    + cbn [occurrences]. unfold category_eqb.
      destruct c; cbn [rank Nat.eqb clashes fragment] in *;
        try (destruct (includes cur "::") eqn:Hcur;
             [rewrite (includes_app_l cur _ "::" Hcur) in Hpe; lia
             |destruct (includes (cur ++ _) "::"); lia]).
      rewrite Hclash.
      rewrite (includes_app_r cur _ "::" (includes_here "::" v)) in Hpe. lia.
Qed.

(** X14: a chained expression started on the facade that returns was in
    order: the ranks of its calls never decrease, and it holds at most one
    [id] call and at most one [pseudoElement] call. *)
Theorem returned_chain_is_ordered (h : heap) (cs : list call) (v : value) :
  pristine h ->
  build_in h cs = Normal v ->
  nondecreasing (map (fun x => rank (fst x)) cs) = true /\
  (occurrences Id cs <= 1)%nat /\
  (occurrences PseudoElement cs <= 1)%nat.
Proof.
  intros Hp Hrun. apply pristine_get in Hp as [Hsel Hlast].
  destruct cs as [|[c a] cs]; [cbn; repeat split; lia|].
  unfold build_in, bind in Hrun. cbn [chain] in Hrun. unfold bind in Hrun.
  rewrite (append_spec c facade a h EmptyString Hsel) in Hrun.
  destruct (out_of_order _ _); [discriminate|].
  destruct (clashes c EmptyString a) eqn:Hclash; [discriminate|].
  set (o := Object _ _) in Hrun.
  destruct (chain cs (length h) (h ++ [o])%list) as [[built|e] h'] eqn:Hchain;
    [|discriminate].
  apply chain_returns_ordered with (cur := EmptyString ++ fragment c a) (c0 := c)
    in Hchain as (Hord & Hid & Hpe); try (apply get_fresh; reflexivity).
  split; [|split].
  - cbn [map fst]. apply (nondecreasing_tail (rank c)). cbn [nondecreasing].
    rewrite Nat.leb_refl. exact Hord.
  - cbn [occurrences]. unfold category_eqb.
    destruct c; cbn [rank Nat.eqb fragment String.append] in *;
      try (destruct (includes _ "#") in Hid; lia).
    pose proof (includes_here "#" a) as Hhere. cbn [String.append] in Hhere.
    rewrite Hhere in Hid. lia.
  - cbn [occurrences]. unfold category_eqb.
    destruct c; cbn [rank Nat.eqb fragment String.append] in *;
      try (destruct (includes _ "::") in Hpe; lia).
    pose proof (includes_here "::" a) as Hhere. cbn [String.append] in Hhere.
    rewrite Hhere in Hpe. lia.
Qed.

Lemma returned_chain_is_ordered_witness :
  nondecreasing (map (fun x => rank (fst x))
                   [(Element, "a"); (Class, "b"); (PseudoClass, "c")]%list) = true /\
  (occurrences Id [(Element, "a"); (Class, "b"); (PseudoClass, "c")]%list <= 1)%nat /\
  (occurrences PseudoElement
     [(Element, "a"); (Class, "b"); (PseudoClass, "c")]%list <= 1)%nat.
Proof.
  apply (returned_chain_is_ordered heap0
           [(Element, "a"); (Class, "b"); (PseudoClass, "c")]%list (Str "a.b:c"));
    reflexivity.
Defined.

(** X15: [element] rejects a name that already occurs in the accumulated
    text, and so it rejects the empty name on every state: the call
    throws the duplicate error, or the order error where the order check
    fails first. *)
Theorem element_rejects_contained_name (h : heap) (S : loc) (cur v : string) :
  get selector h S = Str cur ->
  includes cur v = true ->
  element S v h =
  (Throw (Error (if out_of_order (get lastPart h S) "element"
                 then order_message else duplicate_message)), h) /\
  element S EmptyString h =
  (Throw (Error (if out_of_order (get lastPart h S) "element"
                 then order_message else duplicate_message)), h).
Proof.
  intros Hsel Hin.
  change (element S v h) with (append Element S v h).
  change (element S EmptyString h) with (append Element S EmptyString h).
  rewrite !(append_spec Element S _ h cur Hsel). cbn [part_name clashes].
  rewrite Hin, includes_empty_sub, !orb_true_r.
  destruct (out_of_order _ _); split; reflexivity.
Qed.

Lemma element_rejects_contained_name_witness :
  element 1%nat "div" (snd (element facade "div" heap0))
  = (Throw (Error duplicate_message), snd (element facade "div" heap0)).
Proof.
  apply (proj1 (element_rejects_contained_name (snd (element facade "div" heap0))
                  1%nat "div" "div" ltac:(reflexivity) ltac:(reflexivity))).
Defined.

(** X16: [combine] never throws and checks nothing, and the state it
    returns accepts [id] exactly when neither operand nor the combinator
    contains ['#']: otherwise the call throws the duplicate error. *)
Theorem id_after_combine (h : heap) (this A B : loc) (c a b name : string) :
  stringify A h = (Normal (Str a), h) ->
  stringify B h = (Normal (Str b), h) ->
  exists (l : loc) (h' : heap),
    combine this A c B h = (Normal l, h') /\
    id l name h' =
    if includes a "#" || includes c "#" || includes b "#"
    then (Throw (Error duplicate_message), h')
    else (Normal (length h'),
          (h' ++ [Object (Some (a ++ " " ++ c ++ " " ++ b ++ "#" ++ name)%string)
                    (Some "id")])%list).
Proof.
  unfold stringify, read. intros [= HA] [= HB].
  rewrite combine_spec. cbv zeta.
  rewrite !get_app by (eapply get_defined; eassumption).
  rewrite HA, HB. cbn [to_string].
  set (text := a ++ " " ++ c ++ " " ++ b).
  set (h' := (h ++ _ ++ _)%list).
  exists (S (length h)), h'. split; [reflexivity|].
  assert (Hlen : S (length h) = length (h ++ [Object None None])%list)
    by (rewrite length_app; cbn; lia).
  assert (Hlast : get lastPart h' (S (length h)) = Str EmptyString).
  { subst h'. rewrite app_assoc, Hlen. apply get_fresh. reflexivity. }
  assert (Hsel : get selector h' (S (length h)) = Str text).
  { subst h'. rewrite app_assoc, Hlen. apply get_fresh. reflexivity. }
  change (id (S (length h)) name h') with (append Id (S (length h)) name h').
  rewrite (append_spec Id _ name h' text Hsel), Hlast, out_of_order_unset.
  cbn [clashes fragment part_name].
  assert (Hinc : includes text "#" = includes a "#" || includes c "#" || includes b "#").
  { subst text. rewrite includes_char_app.
    change (" " ++ c ++ " " ++ b) with (String " " EmptyString ++ (c ++ " " ++ b)).
    rewrite includes_char_app, includes_char_app.
    change (" " ++ b) with (String " " EmptyString ++ b).
    rewrite includes_char_app.
    change (includes (String " " EmptyString) "#") with false.
    cbn [orb]. rewrite orb_assoc. reflexivity. }
  rewrite Hinc. destruct (_ || _); [reflexivity|].
  subst text. rewrite !append_assoc. reflexivity.
Qed.

Lemma id_after_combine_witness :
  exists (l : loc) (h' : heap),
    combine facade 1%nat ">" 2%nat
      (snd (class facade "b" (snd (id facade "a" heap0)))) = (Normal l, h') /\
    id l "c" h' = (Throw (Error duplicate_message), h').
Proof.
  apply (id_after_combine (snd (class facade "b" (snd (id facade "a" heap0))))
           facade 1%nat 2%nat ">" "#a" ".b" "c"); reflexivity.
Defined.

(** * The plain-object helpers *)

Section PlainObjectFacts.

Context {V : Type}.

Implicit Types (o : plain V) (st : list (plain V)) (props : list (string * V)).

Lemma fold_entries_delete (names : list string) props :
  fold_left entries_delete names props = filter (fun e => fst e ∉ names) props.
Proof.
  revert props. induction names as [|name names IH]; intros props; cbn [fold_left].
  - induction props as [|e props IH]; [reflexivity|].
    rewrite filter_cons, decide_True by apply not_elem_of_nil.
    rewrite <- IH. reflexivity.
  - rewrite IH. unfold entries_delete. rewrite list_filter_filter.
    apply list_filter_iff. intros e. rewrite not_elem_of_cons. tauto.
Qed.

Lemma fold_delete_own (names : list string) o :
  fold_left (fun o key => delete_own key o) names o =
  if frozen o then o
  else Plain (filter (fun e => fst e ∉ names) (own o)) false.
Proof.
  destruct o as [props [|]]; cbn [frozen own].
  - induction names as [|name names IH]; [reflexivity|exact IH].
  - rewrite <- fold_entries_delete. revert props.
    induction names as [|name names IH]; intros props; [reflexivity|].
    cbn [fold_left]. unfold delete_own at 2. cbn [frozen own]. apply IH.
Qed.

Lemma fold_alter (f : string -> plain V -> plain V) (names : list string)
    (obj : loc) st :
  fold_left (fun st key => alter (f key) obj st) names st =
  alter (fun o => fold_left (fun o key => f key o) names o) obj st.
Proof.
  revert st. induction names as [|name names IH]; intros st; cbn [fold_left].
  - symmetry. apply list_alter_id. reflexivity.
  - rewrite IH, list_alter_alter_eq. reflexivity.
Qed.

Lemma removeProperties_store (obj : loc) (keys : keys_argument) st :
  removeProperties obj keys st =
  (obj, alter (fun o => if frozen o then o
                        else Plain (filter (fun e => fst e ∉ names_of keys) (own o)) false)
          obj st).
Proof.
  destruct keys as [names|name]; unfold removeProperties; cbv zeta; f_equal.
  - rewrite fold_alter. apply list_alter_ext; [|reflexivity].
    intros o _. apply fold_delete_own.
  - apply list_alter_ext; [|reflexivity].
    intros o _. cbn [names_of]. rewrite <- (fold_delete_own [name] o). reflexivity.
Qed.

Lemma Object_assign_fresh props :
  forall target : list (string * V),
    NoDup (target.*1 ++ props.*1) ->
    "__proto__" ∉ props.*1 ->
    Object_assign target props = (target ++ props)%list.
Proof.
  unfold Object_assign.
  induction props as [|[k v] props IH]; intros target Hnd Hproto; cbn [fold_left].
  - rewrite app_nil_r. reflexivity.
  - cbn [fst snd fmap list_fmap] in *.
    apply not_elem_of_cons in Hproto as [Hk Hproto].
    rewrite decide_False by congruence.
    assert (Hnew : entries_get target k = None).
    { apply entries_get_None. intros Hin.
      apply NoDup_app in Hnd as (_ & Hdisj & _).
      apply (Hdisj k Hin). apply elem_of_cons. left. reflexivity. }
    assert (Hset : entries_set target k v = (target ++ [(k, v)])%list).
    { clear -Hnew. induction target as [|[k0 w] target IH]; [reflexivity|].
      cbn in *. destruct (decide (k0 = k)); [discriminate|].
      rewrite (IH Hnew). reflexivity. }
    rewrite Hset, IH; [rewrite <- app_assoc; reflexivity| |exact Hproto].
    rewrite fmap_app. cbn [fmap list_fmap fst]. rewrite <- app_assoc. exact Hnd.
Qed.

End PlainObjectFacts.

(** X17: [removeProperties] works on the caller's object: it returns the
    very object it was given, and afterwards that object, if not frozen,
    has lost the named properties and kept every other one, in order; no
    other object changes. A name the object does not have is ignored. *)
Theorem removeProperties_mutates_argument {V : Type}
    (obj : loc) (keys : keys_argument) (st : list (plain V)) (o : plain V) :
  st !! obj = Some o ->
  frozen o = false ->
  fst (removeProperties obj keys st) = obj /\
  snd (removeProperties obj keys st) !! obj
  = Some (Plain (filter (fun e => fst e ∉ names_of keys) (own o)) false) /\
  (forall other : loc, other <> obj ->
     snd (removeProperties obj keys st) !! other = st !! other) /\
  (forall name : string,
     entries_get (filter (fun e => fst e ∉ names_of keys) (own o)) name =
     if decide (name ∈ names_of keys) then None else entries_get (own o) name).
Proof.
  intros Hobj Hfrozen. rewrite removeProperties_store. cbn [fst snd].
  split; [reflexivity|]. split; [|split].
  - rewrite list_lookup_alter_eq, Hobj. cbn. rewrite Hfrozen. reflexivity.
  - intros other Hne. apply list_lookup_alter_ne. congruence.
  - intros name. rewrite <- fold_entries_delete.
    generalize (own o). induction (names_of keys) as [|n names IH]; intros props.
    + reflexivity.
    + cbn [fold_left]. rewrite IH, entries_get_delete.
      destruct (decide (name ∈ names)) as [Hin|Hout].
      * rewrite decide_True by (apply elem_of_cons; right; exact Hin). reflexivity.
      * destruct (decide (n = name)) as [->|Hne].
        -- rewrite decide_True by (apply elem_of_cons; left; reflexivity). reflexivity.
        -- rewrite decide_False; [reflexivity|].
           intros Hin. apply elem_of_cons in Hin as [Heq|Hin]; [congruence|contradiction].
Qed.

Lemma removeProperties_mutates_argument_witness :
  snd (removeProperties 0%nat (KeysArray ["b"; "c"; "d"])
         [Plain [("a", 1%nat); ("b", 2%nat); ("c", 3%nat)] false]) !! 0%nat
  = Some (Plain [("a", 1%nat)] false).
Proof.
  apply (removeProperties_mutates_argument 0%nat (KeysArray ["b"; "c"; "d"])
           [Plain [("a", 1%nat); ("b", 2%nat); ("c", 3%nat)] false]
           (Plain [("a", 1%nat); ("b", 2%nat); ("c", 3%nat)] false));
    reflexivity.
Defined.

Lemma filter_keys_of_self {V : Type} (props : list (string * V)) :
  filter (fun e => fst e ∉ props.*1) props = nil.
Proof.
  assert (H : forall names : list string,
             (forall e, e ∈ props -> fst e ∈ names) ->
             filter (fun e => fst e ∉ names) props = nil).
  { intros names. induction props as [|e props IH]; intros Hsub; [reflexivity|].
    rewrite filter_cons, decide_False.
    - apply IH. intros e' He'. apply Hsub, elem_of_cons. right. exact He'.
    - intros Hout. apply Hout, Hsub, elem_of_cons. left. reflexivity. }
  apply H. intros e He. apply list_elem_of_fmap. exists e. split; [reflexivity|exact He].
Qed.

Lemma shallowCopy_store {V : Type} (obj : loc) (st : list (plain V)) (o : plain V) :
  st !! obj = Some o ->
  NoDup (Object_keys (own o)) ->
  "__proto__" ∉ Object_keys (own o) ->
  shallowCopy obj st = (length st, (st ++ [Plain (own o) false])%list).
Proof.
  intros Hobj Hnd Hproto. unfold shallowCopy. cbv zeta. f_equal.
  rewrite (lookup_app_l st _ obj) by (apply lookup_lt_is_Some; eauto).
  rewrite Hobj. cbn [fmap option_fmap option_map default from_option].
  rewrite <- (Nat.add_0_r (length st)) at 1. rewrite alter_app_r. cbn [alter list_alter].
  cbn [own frozen]. rewrite Object_assign_fresh; [reflexivity|exact Hnd|exact Hproto].
Qed.

(** X18: the copy [shallowCopy] returns is a new object with the same own
    properties in the same order, not frozen even if the original was;
    the original and every other object stay as they were, also when
    properties are later removed from the copy. (The source object is an
    ordinary one: distinct property names, none of them [__proto__].) *)
Theorem shallowCopy_is_independent {V : Type}
    (obj : loc) (st : list (plain V)) (o : plain V) (keys : keys_argument) :
  st !! obj = Some o ->
  NoDup (Object_keys (own o)) ->
  "__proto__" ∉ Object_keys (own o) ->
  fst (shallowCopy obj st) = length st /\
  snd (shallowCopy obj st) !! fst (shallowCopy obj st) = Some (Plain (own o) false) /\
  (forall l : loc, (l < length st)%nat -> snd (shallowCopy obj st) !! l = st !! l) /\
  snd (removeProperties (fst (shallowCopy obj st)) keys (snd (shallowCopy obj st)))
    !! obj = Some o.
Proof.
  intros Hobj Hnd Hproto. rewrite (shallowCopy_store obj st o Hobj Hnd Hproto).
  cbn [fst snd].
  assert (Hlt : (obj < length st)%nat) by (apply lookup_lt_is_Some; eauto).
  split; [reflexivity|]. split; [|split].
  - apply list_lookup_middle. reflexivity.
  - intros l Hl. apply lookup_app_l, Hl.
  - rewrite removeProperties_store. cbn [snd].
    rewrite list_lookup_alter_ne by lia. rewrite lookup_app_l by exact Hlt. exact Hobj.
Qed.

Lemma shallowCopy_is_independent_witness :
  snd (removeProperties 1%nat (NotAnArray "a")
         (snd (shallowCopy 0%nat [Plain [("a", 2%nat); ("b", 5%nat)] true]))) !! 0%nat
  = Some (Plain [("a", 2%nat); ("b", 5%nat)] true).
Proof.
  apply (shallowCopy_is_independent 0%nat [Plain [("a", 2%nat); ("b", 5%nat)] true]
           (Plain [("a", 2%nat); ("b", 5%nat)] true) (NotAnArray "a"));
    [reflexivity| |]; apply (bool_decide_unpack _); vm_compute; exact I.
Defined.

(** X19: after [makeImmutable] the object holds the same properties, and
    [removeProperties] on it removes nothing and reports nothing: it
    returns the object with every property still there. *)
Theorem removeProperties_ignores_frozen {V : Type}
    (obj : loc) (st : list (plain V)) (o : plain V) (keys : keys_argument) :
  st !! obj = Some o ->
  fst (makeImmutable obj st) = obj /\
  snd (makeImmutable obj st) !! obj = Some (Plain (own o) true) /\
  removeProperties obj keys (snd (makeImmutable obj st))
  = (obj, snd (makeImmutable obj st)).
Proof.
  intros Hobj. unfold makeImmutable. cbn [fst snd].
  assert (Hst : alter (fun o0 : plain V => Plain (own o0) true) obj st !! obj
                = Some (Plain (own o) true)).
  { rewrite list_lookup_alter_eq, Hobj. reflexivity. }
  split; [reflexivity|]. split; [exact Hst|].
  rewrite removeProperties_store. f_equal.
  rewrite list_alter_alter_eq. apply list_alter_ext; [|reflexivity].
  intros x _. reflexivity.
Qed.

Lemma removeProperties_ignores_frozen_witness :
  removeProperties 0%nat (KeysArray ["a"])
    (snd (makeImmutable 0%nat [Plain [("a", 1%nat); ("b", 2%nat)] false]))
  = (0%nat, [Plain [("a", 1%nat); ("b", 2%nat)] true]).
Proof.
  apply (removeProperties_ignores_frozen 0%nat
           [Plain [("a", 1%nat); ("b", 2%nat)] false]
           (Plain [("a", 1%nat); ("b", 2%nat)] false) (KeysArray ["a"])).
  reflexivity.
Defined.

(** X20: removing from an unfrozen object all the names [Object.keys]
    lists for it leaves an object that [isEmptyObject] finds empty. *)
Theorem isEmptyObject_after_removing_all {V : Type}
    (obj : loc) (st : list (plain V)) (o : plain V) :
  st !! obj = Some o ->
  frozen o = false ->
  isEmptyObject obj
    (snd (removeProperties obj (KeysArray (Object_keys (own o))) st)) = true.
Proof.
  intros Hobj Hfrozen. rewrite removeProperties_store. cbn [snd names_of].
  unfold isEmptyObject. cbv zeta.
  rewrite list_lookup_alter_eq, Hobj. cbn [fmap option_fmap option_map default from_option].
  rewrite Hfrozen. cbn [own]. unfold Object_keys.
  rewrite filter_keys_of_self. reflexivity.
Qed.

Lemma isEmptyObject_after_removing_all_witness :
  isEmptyObject 0%nat
    (snd (removeProperties 0%nat (KeysArray ["a"; "b"])
            [Plain [("a", 1%nat); ("b", 2%nat)] false])) = true.
Proof.
  apply (isEmptyObject_after_removing_all 0%nat
           [Plain [("a", 1%nat); ("b", 2%nat)] false]
           (Plain [("a", 1%nat); ("b", 2%nat)] false)); reflexivity.
Defined.

(** * [mergeObjects] and [compareObjects] *)

Section MergeFacts.

Context {V : Type}.
Variables (truthy : V -> bool) (plus : V -> V -> V).
Variable inherited_value : string -> option V.

Abbreviation read := (read_property inherited_value).
Abbreviation merge := (merge_entry truthy plus inherited_value).
Abbreviation fold_value := (fold_left (merge_value truthy plus)).

Implicit Types (res obj : list (string * V)) (key : string).

Lemma merge_value_Some (acc : option V) (val : V) :
  exists x, merge_value truthy plus acc val = Some x.
Proof. destruct acc as [cur|]; cbn; [destruct (truthy cur)|]; eauto. Qed.

Lemma merge_entry_get res (item : string * V) key :
  key <> "__proto__" ->
  entries_get (merge res item) key =
  if decide (fst item = key)
  then merge_value truthy plus (read res key) (snd item)
  else entries_get res key.
Proof.
  intros Hkey. destruct item as [k val]. cbn [fst snd].
  unfold merge_entry, write_property. cbn [fst snd].
  destruct (decide (k = key)) as [->|Hne].
  - destruct (decide (key = "__proto__")); [contradiction|]. unfold merge_value.
    destruct (read res key) as [cur|]; [destruct (truthy cur)|];
      rewrite entries_get_set, decide_True by reflexivity; reflexivity.
  - destruct (decide (k = "__proto__")).
    + destruct (read res k) as [cur|]; [destruct (truthy cur)|]; reflexivity.
    + destruct (read res k) as [cur|]; [destruct (truthy cur)|];
        rewrite entries_get_set, decide_False by exact Hne; reflexivity.
Qed.

Lemma merge_entry_read res (item : string * V) key :
  key <> "__proto__" ->
  read (merge res item) key =
  if decide (fst item = key)
  then merge_value truthy plus (read res key) (snd item)
  else read res key.
Proof.
  intros Hkey. unfold read_property at 1. rewrite merge_entry_get by exact Hkey.
  destruct (decide (fst item = key)); [|reflexivity].
  destruct (merge_value_Some (read res key) (snd item)) as [x ->]. reflexivity.
Qed.

Lemma fold_merge_entry obj :
  forall res key,
    key <> "__proto__" ->
    read (fold_left merge obj res) key
    = fold_value (snd <$> filter (fun e => fst e = key) obj) (read res key) /\
    entries_get (fold_left merge obj res) key
    = match snd <$> filter (fun e => fst e = key) obj with
      | nil => entries_get res key
      | vals => fold_value vals (read res key)
      end.
Proof.
  induction obj as [|item obj IH]; intros res key Hkey; [split; reflexivity|].
  cbn [fold_left]. destruct (IH (merge res item) key Hkey) as [IHr IHg].
  rewrite IHr, IHg, merge_entry_read, merge_entry_get by exact Hkey.
  rewrite filter_cons. destruct (decide (fst item = key)) as [Heq|Hne].
  - rewrite fmap_cons. cbn [fold_left]. split; [reflexivity|].
    destruct (snd <$> filter _ obj); reflexivity.
  - split; reflexivity.
Qed.

Lemma fold_value_Some (vals : list V) (acc : option V) :
  vals <> nil -> exists x, fold_value vals acc = Some x.
Proof.
  revert acc. induction vals as [|v vals IH]; intros acc Hne; [contradiction|].
  cbn [fold_left]. destruct vals as [|v' vals].
  - apply merge_value_Some.
  - apply IH. discriminate.
Qed.

Lemma mergeObjects_fold (objects : list (list (string * V))) :
  forall res key,
    key <> "__proto__" ->
    read (fold_left (fun res obj => fold_left merge obj res) objects res) key
    = fold_value (values_under key objects) (read res key) /\
    entries_get (fold_left (fun res obj => fold_left merge obj res) objects res) key
    = match values_under key objects with
      | nil => entries_get res key
      | vals => fold_value vals (read res key)
      end.
Proof.
  induction objects as [|obj objects IH]; intros res key Hkey; [split; reflexivity|].
  cbn [fold_left]. destruct (IH (fold_left merge obj res) key Hkey) as [IHr IHg].
  destruct (fold_merge_entry obj res key Hkey) as [Hr Hg].
  rewrite IHr, IHg, Hr, Hg.
  change (values_under key (obj :: objects))
    with ((snd <$> filter (fun e => fst e = key) obj) ++ values_under key objects)%list.
  destruct (snd <$> filter (fun e => fst e = key) obj) as [|v vals1];
    destruct (values_under key objects) as [|w vals2].
  - split; reflexivity.
  - split; reflexivity.
  - rewrite app_nil_r. split; reflexivity.
  - split; [rewrite fold_left_app; reflexivity|].
    cbn [app fold_left]. rewrite fold_left_app. reflexivity.
Qed.

End MergeFacts.

(** X21: in the object [mergeObjects] returns, a name other than
    [__proto__] is present exactly when some object of the array has it,
    and it holds the values found under that name, folded left to right:
    each value is added with [+=] to what is there, unless what is there
    is falsy (or nothing), in which case it replaces it. The fold starts
    from what [Object.prototype] holds under the name, if anything. *)
Theorem mergeObjects_lookup {V : Type} (truthy : V -> bool) (plus : V -> V -> V)
    (inherited_value : string -> option V)
    (objects : list (list (string * V))) (key : string) :
  key <> "__proto__" ->
  entries_get (mergeObjects truthy plus inherited_value objects) key
  = match values_under key objects with
    | nil => None
    | vals => fold_left (merge_value truthy plus) vals (inherited_value key)
    end.
Proof.
  intros Hkey. unfold mergeObjects.
  destruct (mergeObjects_fold truthy plus inherited_value objects nil key Hkey)
    as [_ Hg].
  exact Hg.
Qed.

Lemma mergeObjects_lookup_witness :
  entries_get
    (mergeObjects (fun n => negb (n =? 0)%nat) Nat.add (fun _ => None)
       [[("a", 1%nat); ("b", 2%nat)]; [("b", 3%nat); ("c", 5%nat)]]) "b"
  = Some 5%nat.
Proof.
  apply (mergeObjects_lookup (fun n => negb (n =? 0)%nat) Nat.add (fun _ => None)
           [[("a", 1%nat); ("b", 2%nat)]; [("b", 3%nat); ("c", 5%nat)]] "b").
  discriminate.
Defined.

(** Adding safe integers one after the other gives their sum, as long as
    every total on the way is a safe integer. *)
Lemma fold_value_sum (plus : Z -> Z -> Z) (vals : list Z) (c : Z) :
  exact_on_safe_integers plus ->
  isSafeInteger c = true ->
  forallb isSafeInteger vals = true ->
  forallb isSafeInteger (running_totals c vals) = true ->
  fold_left (merge_value number_truthy plus) vals (Some c)
  = Some (c + foldr Z.add 0 vals).
Proof.
  intros Hplus. revert c.
  induction vals as [|v vals IH]; intros c Hc Hvals Htotals;
    cbn [fold_left foldr].
  - f_equal. lia.
  - cbn [forallb running_totals] in Hvals, Htotals.
    apply andb_true_iff in Hvals as [Hv Hvals].
    apply andb_true_iff in Htotals as [Hcv Htotals].
    assert (Hstep : merge_value number_truthy plus (Some c) v = Some (c + v)).
    { unfold merge_value, number_truthy.
      destruct (Z.eqb_spec c 0) as [Hz|Hnz]; cbn [negb].
      - f_equal. lia.
      - f_equal. apply Hplus; assumption. }
    rewrite Hstep, (IH (c + v) Hcv Hvals Htotals). f_equal. lia.
Qed.

(** X22: let the values be integers, [+] be exact on safe integers whose
    sum is a safe integer, and the name be neither [__proto__] nor defined
    by [Object.prototype]. If the values the objects hold under the name,
    and the totals reached while they are added in order, are all safe
    integers, the merged object holds their sum under the name; it lacks
    the name when no object has it. *)
Theorem mergeObjects_sums (plus : Z -> Z -> Z)
    (inherited_value : string -> option Z)
    (objects : list (list (string * Z))) (key : string) :
  exact_on_safe_integers plus ->
  key <> "__proto__" ->
  inherited_value key = None ->
  safely_summable (values_under key objects) = true ->
  entries_get (mergeObjects number_truthy plus inherited_value objects) key
  = match values_under key objects with
    | nil => None
    | vals => Some (foldr Z.add 0 vals)
    end.
Proof.
  intros Hplus Hkey Hinh Hsafe.
  assert (Hg : entries_get (mergeObjects number_truthy plus inherited_value objects) key
               = match values_under key objects with
                 | nil => None
                 | vals => fold_left (merge_value number_truthy plus) vals
                             (inherited_value key)
                 end).
  { unfold mergeObjects.
    destruct (mergeObjects_fold number_truthy plus inherited_value objects nil key Hkey)
      as [_ Hg].
    exact Hg. }
  rewrite Hg, Hinh. clear Hg.
  destruct (values_under key objects) as [|v vals]; [reflexivity|].
  unfold safely_summable in Hsafe. cbn [forallb running_totals] in Hsafe.
  apply andb_true_iff in Hsafe as [Hvals Htotals].
  apply andb_true_iff in Hvals as [Hv Hvals].
  apply andb_true_iff in Htotals as [_ Htotals].
  change (0 + v) with v in Htotals.
  cbn [fold_left merge_value foldr].
  apply fold_value_sum; assumption.
Qed.

Lemma mergeObjects_sums_witness :
  entries_get
    (mergeObjects number_truthy Z.add (fun _ => None)
       [[("a", 1); ("b", 2)]; [("b", 3); ("c", 5)]]) "b"
  = Some 5.
Proof.
  apply (mergeObjects_sums Z.add (fun _ => None)
           [[("a", 1); ("b", 2)]; [("b", 3); ("c", 5)]] "b").
  - intros a b _ _ _. reflexivity.
  - discriminate.
  - reflexivity.
  - reflexivity.
Defined.

Section CompareFacts.

Context {V : Type}.
Variables (truthy : V -> bool) (identical : V -> V -> bool).
Variable inherited_value : string -> option V.
Variables (obj1 obj2 : list (string * V)) (keys1 : list string).

Abbreviation same := (same_under truthy identical inherited_value obj1 obj2).
Abbreviation loop := (fun fuel => compare_loop truthy identical inherited_value fuel
                                    obj1 obj2 keys1).

(** Where the loop stops, if it stops: at the first index from [i] whose
    name fails the condition. *)
Lemma compare_loop_stops (fuel : nat) :
  forall i j : nat,
    loop fuel i = Some j ->
    (i <= j)%nat /\ same (key_at keys1 j) = false /\
    (forall m, (i <= m < j)%nat -> same (key_at keys1 m) = true).
Proof.
  induction fuel as [|fuel IH]; intros i j Hrun; [discriminate|].
  cbn [compare_loop] in Hrun.
  destruct (same (key_at keys1 i)) eqn:Hi.
  - apply IH in Hrun as (Hle & Hj & Hbefore). split; [lia|]. split; [exact Hj|].
    intros m Hm. destruct (decide (m = i)) as [->|Hne]; [exact Hi|].
    apply Hbefore. lia.
  - injection Hrun as <-. split; [lia|]. split; [exact Hi|]. intros m Hm. lia.
Qed.

(** The loop stops when some index from [i] on fails the condition and
    the fuel reaches it. *)
Lemma compare_loop_terminates (fuel : nat) :
  forall i j : nat,
    (i <= j)%nat -> same (key_at keys1 j) = false -> (j - i < fuel)%nat ->
    exists j', loop fuel i = Some j'.
Proof.
  induction fuel as [|fuel IH]; intros i j Hle Hj Hfuel; [lia|].
  cbn [compare_loop]. destruct (same (key_at keys1 i)) eqn:Hi; [|eauto].
  assert (Hne : i <> j) by (intros ->; congruence).
  apply (IH (i + 1)%nat j); [lia|exact Hj|lia].
Qed.

Lemma compare_loop_diverges (fuel : nat) :
  (forall m, same (key_at keys1 m) = true) ->
  forall i, loop fuel i = None.
Proof.
  intros Hall. induction fuel as [|fuel IH]; intros i; [reflexivity|].
  cbn [compare_loop]. rewrite Hall. apply IH.
Qed.

Lemma key_at_inside (m : nat) (k : string) : keys1 !! m = Some k -> key_at keys1 m = k.
Proof. unfold key_at. intros ->. reflexivity. Qed.

Lemma key_at_outside (m : nat) : (length keys1 <= m)%nat -> key_at keys1 m = "undefined".
Proof. unfold key_at. intros Hm. rewrite lookup_ge_None_2 by exact Hm. reflexivity. Qed.

Lemma forallb_same_keys :
  forallb same keys1 = true <->
  (forall m, (m < length keys1)%nat -> same (key_at keys1 m) = true).
Proof.
  rewrite forallb_forall. split.
  - intros Hall m Hm. apply lookup_lt_is_Some in Hm as [k Hk].
    rewrite (key_at_inside m k Hk). apply Hall, list_elem_of_In.
    apply list_elem_of_lookup. eauto.
  - intros Hall k Hk. apply list_elem_of_In, list_elem_of_lookup in Hk as [m Hm].
    rewrite <- (key_at_inside m k Hm). apply Hall. apply lookup_lt_is_Some. eauto.
Qed.

End CompareFacts.

(** X23: when the name ["undefined"] does not itself pass the loop's
    condition, [compareObjects] returns, and it answers true exactly when
    every own property of the first object is, in the second object,
    truthy and strictly equal to it. Properties that only the second
    object has play no part. *)
Theorem compareObjects_decides {V : Type} (truthy : V -> bool)
    (identical : V -> V -> bool) (inherited_value : string -> option V)
    (obj1 obj2 : list (string * V)) (fuel : nat) :
  same_under truthy identical inherited_value obj1 obj2 "undefined" = false ->
  (length obj1 < fuel)%nat ->
  compareObjects truthy identical inherited_value fuel obj1 obj2
  = Some (forallb (same_under truthy identical inherited_value obj1 obj2)
            (Object_keys obj1)).
Proof.
  intros Hundef Hfuel. unfold compareObjects. cbv zeta.
  set (keys1 := Object_keys obj1).
  assert (Hlen : length keys1 = length obj1) by (subst keys1; apply length_fmap).
  assert (Hend : same_under truthy identical inherited_value obj1 obj2
                   (key_at keys1 (length keys1)) = false).
  { rewrite key_at_outside by lia. exact Hundef. }
  destruct (compare_loop_terminates truthy identical inherited_value obj1 obj2 keys1
              fuel 0 (length keys1)) as [j Hrun]; [lia|exact Hend|lia|].
  rewrite Hrun. cbn [fmap option_fmap option_map]. f_equal.
  apply compare_loop_stops in Hrun as (_ & Hj & Hbefore).
  destruct (Nat.eqb_spec j (length keys1)) as [->|Hne].
  - symmetry. apply forallb_same_keys. intros m Hm. apply Hbefore. lia.
  - symmetry. apply not_true_iff_false. intros Hall.
    rewrite forallb_same_keys in Hall.
    destruct (Nat.lt_ge_cases j (length keys1)) as [Hlt|Hge].
    + rewrite (Hall j Hlt) in Hj. discriminate.
    + rewrite (Hbefore (length keys1)) in Hend by lia. discriminate.
Qed.

Lemma compareObjects_decides_witness :
  compareObjects (fun n => negb (n =? 0)%nat) Nat.eqb (fun _ => None) 2
    [("a", 1%nat)] [("a", 1%nat); ("b", 2%nat)]
  = Some true.
Proof.
  apply (compareObjects_decides (fun n => negb (n =? 0)%nat) Nat.eqb (fun _ => None)
           [("a", 1%nat)] [("a", 1%nat); ("b", 2%nat)] 2);
    [reflexivity|cbn; lia].
Defined.

(** X24: an object that has a property with a falsy value (0, the empty
    string, ...) compares as not equal to every object that holds the
    same value there, itself included. *)
Theorem compareObjects_falsy_value_never_equal {V : Type} (truthy : V -> bool)
    (identical : V -> V -> bool) (inherited_value : string -> option V)
    (obj1 obj2 : list (string * V)) (fuel : nat) (key : string) (v : V) :
  key ∈ Object_keys obj1 ->
  entries_get obj2 key = Some v ->
  truthy v = false ->
  (length obj1 < fuel)%nat ->
  compareObjects truthy identical inherited_value fuel obj1 obj2 = Some false.
Proof.
  intros Hkey Hget Hfalsy Hfuel. unfold compareObjects. cbv zeta.
  set (keys1 := Object_keys obj1) in *.
  assert (Hlen : length keys1 = length obj1) by (subst keys1; apply length_fmap).
  apply list_elem_of_lookup in Hkey as [m Hm].
  assert (Hmlt : (m < length keys1)%nat) by (apply lookup_lt_is_Some; eauto).
  assert (Hfail : same_under truthy identical inherited_value obj1 obj2
                    (key_at keys1 m) = false).
  { rewrite (key_at_inside keys1 m key Hm). unfold same_under, read_property.
    rewrite Hget. cbn [truthy_opt]. rewrite Hfalsy. reflexivity. }
  destruct (compare_loop_terminates truthy identical inherited_value obj1 obj2 keys1
              fuel 0 m) as [j Hrun]; [lia|exact Hfail|lia|].
  rewrite Hrun. cbn [fmap option_fmap option_map]. f_equal.
  apply compare_loop_stops in Hrun as (_ & Hj & Hbefore).
  apply Nat.eqb_neq. intros ->.
  rewrite (Hbefore m) in Hfail by lia. discriminate.
Qed.

Lemma compareObjects_falsy_value_never_equal_witness :
  compareObjects (fun n => negb (n =? 0)%nat) Nat.eqb (fun _ => None) 3
    [("a", 1%nat); ("b", 0%nat)] [("a", 1%nat); ("b", 0%nat)]
  = Some false.
Proof.
  apply (compareObjects_falsy_value_never_equal (fun n => negb (n =? 0)%nat) Nat.eqb
           (fun _ => None) [("a", 1%nat); ("b", 0%nat)] [("a", 1%nat); ("b", 0%nat)]
           3 "b" 0%nat);
    [apply (bool_decide_unpack _); vm_compute; exact I
    |reflexivity|reflexivity|cbn; lia].
Defined.

(** X25: when every own property of the first object passes the loop's
    condition and so does the name ["undefined"] (both objects have a
    property of that name with the same truthy value), the loop of
    [compareObjects] never ends: no amount of fuel yields an answer. *)
Theorem compareObjects_never_returns {V : Type} (truthy : V -> bool)
    (identical : V -> V -> bool) (inherited_value : string -> option V)
    (obj1 obj2 : list (string * V)) :
  forallb (same_under truthy identical inherited_value obj1 obj2) (Object_keys obj1)
  = true ->
  same_under truthy identical inherited_value obj1 obj2 "undefined" = true ->
  forall fuel : nat,
    compareObjects truthy identical inherited_value fuel obj1 obj2 = None.
Proof.
  intros Hall Hundef fuel. unfold compareObjects. cbv zeta.
  rewrite compare_loop_diverges; [reflexivity|].
  intros m. destruct (Nat.lt_ge_cases m (length (Object_keys obj1))) as [Hlt|Hge].
  - rewrite forallb_same_keys in Hall. apply Hall, Hlt.
  - rewrite key_at_outside by exact Hge. exact Hundef.
Qed.

Lemma compareObjects_never_returns_witness :
  compareObjects (fun n => negb (n =? 0)%nat) Nat.eqb (fun _ => None) 1000
    [("undefined", 1%nat)] [("undefined", 1%nat)]
  = None.
Proof.
  apply (compareObjects_never_returns (fun n => negb (n =? 0)%nat) Nat.eqb
           (fun _ => None) [("undefined", 1%nat)] [("undefined", 1%nat)]);
    reflexivity.
Defined.
